(** * nytl: connections and callbacks

    A shallow embedding of [nytl/connection.hpp] and [nytl/callback.hpp]
    and the properties of the dispatch mechanism they implement. *)

From Stdlib Require Import ZArith Lia Sorted.
From stdpp Require Import base option numbers list.

Local Open Scope Z_scope.

(** ** [std::size_t]

    The counter [highestID_] and the value of a [ConnectionID] are
    [std::size_t]; the width is taken to be 64 bits and increments wrap. *)

Definition size_t_modulus : Z := 2 ^ 64.
Definition SIZE_MAX : Z := size_t_modulus - 1.

(** [++n] on a [std::size_t]. *)
Definition size_t_incr (n : Z) : Z := (n + 1) mod size_t_modulus.

(** ** Connection ids ([connection.hpp])

    [Callback] is a template over the id type; what it uses of an id is
    collected in [ConnID]: value-initialisation [ID {}], conversion from a
    [std::size_t], [reset()], [valid()] and [operator==] (here the
    decidable equality of the representation).  [Store] is the memory an id
    may share with its copies: nothing for [ConnectionID], the cells owned
    by [std::shared_ptr] for [TrackedConnectionID]. *)

Class ConnID (ID Store : Type) := {
id_eq_dec :: EqDecision ID;
id_default : ID;
id_from_size : Z → Store → ID * Store;
id_reset : ID → Store → ID * Store;
id_valid : ID → Store → bool;
}.

Module ConnectionID.
(** [struct ConnectionID { std::size_t value; ... }] *)
Record t := mk { value : Z }.

#[global] Instance eq_dec : EqDecision t.
Proof. solve_decision. Defined.

(** [constexpr void reset() { value = 0; }] *)
Definition reset (c : t) : t := mk 0.

(** [constexpr bool valid() const { return value; }] *)
Definition valid (c : t) : bool := negb (value c =? 0).

#[global] Instance conn_id : ConnID t unit := {|
    id_default := mk 0;
    id_from_size := λ n s, (mk n, s);
    id_reset := λ c s, (reset c, s);
    id_valid := λ c _, valid c;
|}.
End ConnectionID.

Module TrackedConnectionID.
(** The cells allocated by [std::make_shared<std::size_t>]: a cell is
    named by its index and is never handed out twice.  (A cell whose last
    owner is gone can no longer be read, so releasing it is not
    modelled.) *)
Abbreviation loc := nat.
Abbreviation heap := (list Z).

(** [struct TrackedConnectionID { std::shared_ptr<std::size_t> value; }];
    [None] is the empty pointer. *)
Record t := mk { value : option loc }.

#[global] Instance eq_dec : EqDecision t.
Proof. solve_decision. Defined.

(** [TrackedConnectionID() = default;] *)
Definition empty : t := mk None.

(** [TrackedConnectionID(std::size_t val) :
      value(std::make_shared<std::size_t>(val)) {}] *)
Definition make (val : Z) (h : heap) : t * heap :=
    (mk (Some (length h)), h ++ [val]).

(** [void reset() { if(value) *value = 0; value.reset(); }] *)
Definition reset (c : t) (h : heap) : t * heap :=
    (mk None, match value c with Some l => <[l := 0]> h | None => h end).

(** [bool valid() const { return value && *value; }] *)
Definition valid (c : t) (h : heap) : bool :=
    match value c with
    | Some l => match h !! l with Some v => negb (v =? 0) | None => false end
    | None => false
    end.

#[global] Instance conn_id : ConnID t heap := {|
    id_default := empty;
    id_from_size := make;
    id_reset := reset;
    id_valid := valid;
|}.
End TrackedConnectionID.

(** ** The registry ([callback.hpp])

    The header is caught between two representations of the registered
    listeners.  [slots_] is declared as the head of a chain of nodes
    ([CallbackSlot* slots_], [CallbackSlot::next]); [emplace], the first
    branch of [disconnect] and [CallIter] follow that declaration.  [call],
    [add], [clear], the destructor and the call of [checkErase] in the loop
    of [disconnect] address the same member as a sequence ([slots[idx]],
    [slots.size()], [slots_.back()], [slots_.clear()],
    [it - slots_.begin()]).

    The chain is held here as the list of its nodes, which reads both ways:
    [slots_] is the list, [node->next] its tail from that node on,
    [slots_.back()] the last node, [slots[idx]] the node at position [idx]
    and [slots.size()] the length.

    A frame has two members.  [call] keeps its place in the list in
    [stackIter.current], an index: [auto& idx = stackIter.current],
    [slots[idx]], [++idx], [idx < slots.size()].  [CallIter] declares the
    pointer [next], which [checkErase] compares with its argument and
    writes.  No statement of the header reads the one and writes the
    other: [call] never touches [next], [checkErase] and [disconnect] never
    touch [current].  A pointer to a node is held as the position of the
    node, and the null pointer as [None]; a node passed to [checkErase],
    as a pointer or as [it - slots_.begin()], is likewise its position.
    [CallIter stackIter;] leaves [next] null and [checkErase] writes a
    [next] only where it equals its argument, so the frames that [call]
    links have [next] null for as long as they are linked.

    A listener is a [std::function<Ret(Conn, Args...)>].  What its body can
    do to the registry it is registered at is described by a program over
    the registry's operations, each continued with the operation's result:
    it can return, fail (throw), and call [disconnect], [add], [call] and
    [clear] on the registry.  The handle [Conn] it receives is the registry
    together with the id stored in that handle, so a listener is a function
    of that id and of the call's arguments; [conn.disconnect()] inside the
    listener is [Disconnect] of the id received. *)

Section Callback.
Context {Args Ret ID Store : Type} `{!ConnID ID Store}.

Inductive Prog : Type :=
| Return (r : Ret)
| Throw
| Disconnect (i : ID) (k : bool → Prog)
| Add (f : ID → Args → Prog) (k : ID → Prog)
| Call (a : Args) (k : list Ret → Prog)
| Clear (k : Prog).

Definition Listener : Type := ID → Args → Prog.

(** [struct CallbackSlot { ID id; std::function<...> func; CallbackSlot* next; }]
    [next] is the list's own link. *)
Record CallbackSlot := mkSlot { id : ID; func : Listener }.

(** [struct CallIter { CallbackSlot* next {}; CallIter* above {}; }]
    together with the index [current] that [call] uses of its frame.  The
    frames of the active calls are linked through [above]; they are held
    as the list that starts at [callIter_], innermost frame first, and a
    frame is told from the others by its place in that list. *)
Record CallIter := mkCallIter { current : nat; next : option nat }.

(** A frame as [call] has it: [CallIter stackIter;] leaves [next] null,
    and [call] writes [current] only. *)
Definition mkIter (n : nat) : CallIter := mkCallIter n None.

(** A record of what [call] does, after what its [void] specialisation
    writes to [std::cout] and kept for every return type: a step notes the
    position [idx] of the entry captured, the id and the arguments passed
    to its listener and, as [depth], how many frames are linked then. *)
Inductive Event :=
| CallBegin
| CallStep (depth idx : nat) (i : ID) (a : Args)
| CallEnd.

(** The members of [Callback], the memory its ids share with the handles
    handed out ([cells]) and the output written so far ([out]). *)
Record Callback := mkCallback {
  cells : Store;
  highestID_ : Z;
  slots_ : list CallbackSlot;
  callIter_ : list CallIter;
  out : list Event;
}.

Definition set_cells (s : Store) (c : Callback) : Callback :=
  mkCallback s (highestID_ c) (slots_ c) (callIter_ c) (out c).
Definition set_highestID (h : Z) (c : Callback) : Callback :=
  mkCallback (cells c) h (slots_ c) (callIter_ c) (out c).
Definition set_slots (l : list CallbackSlot) (c : Callback) : Callback :=
  mkCallback (cells c) (highestID_ c) l (callIter_ c) (out c).
Definition set_callIter (l : list CallIter) (c : Callback) : Callback :=
  mkCallback (cells c) (highestID_ c) (slots_ c) l (out c).
Definition write (e : Event) (c : Callback) : Callback :=
  mkCallback (cells c) (highestID_ c) (slots_ c) (callIter_ c) (out c ++ [e]).

(** Writing several events. *)
Definition write_all (evs : list Event) (c : Callback) : Callback :=
  mkCallback (cells c) (highestID_ c) (slots_ c) (callIter_ c) (out c ++ evs).

(** A registry as constructed: [highestID_ {}], [slots_ {}], [callIter_ {}]. *)
Definition new_callback (s : Store) : Callback := mkCallback s 0 [] [] [].

(** *** [emplace] and [add] *)

(** [auto slot = slots_; while(slot->next) slot = slot->next;
     slot->next = new CallbackSlot();] and, for the empty chain,
    [slots_ = new CallbackSlot();]. *)
Fixpoint link_last (chain : list CallbackSlot) (n : CallbackSlot)
  : list CallbackSlot :=
  match chain with
  | [] => [n]
  | slot :: rest => slot :: link_last rest n
  end.

(** [emplace] followed by [slots_.back().func = func]: the new node gets
    the id [++highestID_] and the listener. *)
Definition emplace (f : Listener) (c : Callback) : Callback :=
  let h := size_t_incr (highestID_ c) in
  let '(i, s) := id_from_size h (cells c) in
  set_slots (link_last (slots_ c) (mkSlot i f)) (set_cells s (set_highestID h c)).

(** [Conn add(std::function<Ret(Conn, Args...)> func)]; the handle returned
    is [{*this, slots_.back().id}], of which the id is kept. *)
Definition add (f : Listener) (c : Callback) : ID * Callback :=
  let c' := emplace f c in
  (match last (slots_ c') with Some slot => id slot | None => id_default end, c').

(** [Conn add(std::function<Ret(Args...)> func)] wraps the function in a
    listener that drops the handle. *)
Definition add_plain (g : Args → Prog) (c : Callback) : ID * Callback :=
  add (λ _ a, g a) c.

(** *** [CallIter::checkErase] *)

(** [slot->next] for the node at position [slot] of the chain: the node
    behind it, null behind the last. *)
Definition node_next (chain : list CallbackSlot) (slot : nat) : option nat :=
  if decide (S slot < length chain)%nat then Some (S slot) else None.

(** [if(slot == next) next = slot->next;] for the node at position
    [slot]. *)
Definition erase (chain : list CallbackSlot) (slot : nat) (f : CallIter)
  : CallIter :=
  if decide (next f = Some slot)
  then mkCallIter (current f) (node_next chain slot)
  else f.

(** [void checkErase(CallbackSlot* slot)
     { if(slot == next) next = slot->next;
       if(above) above->checkErase(slot); }],
    called on [callIter_] when that is not null. *)
Fixpoint checkErase (chain : list CallbackSlot) (slot : nat)
    (it : list CallIter) : list CallIter :=
  match it with
  | [] => []
  | f :: above => erase chain slot f :: checkErase chain slot above
  end.

(** *** [disconnect] *)

(** [slots[n].id.reset()] *)
Definition reset_id (n : nat) (c : Callback) : Callback :=
  match slots_ c !! n with
  | Some slot =>
      let '(i, s) := id_reset (id slot) (cells c) in
      set_slots (<[n := mkSlot i (func slot)]> (slots_ c)) (set_cells s c)
  | None => c
  end.

(** [auto tmp = slots_; slots_ = slots_->next; delete tmp;]
    The frames are not written to. *)
Definition unlink_first (c : Callback) : Callback :=
  set_slots (tail (slots_ c)) c.

(** [for(auto it = slots_; it && it->next; it = it->next)
      if(it->next->id == id)]: the position of the first [it] found. *)
Fixpoint find_before (i : ID) (chain : list CallbackSlot) : option nat :=
  match chain with
  | _ :: (nx :: _) as rest =>
      if decide (id nx = i) then Some 0%nat else S <$> find_before i rest
  | _ => None
  end.

Definition disconnect (i : ID) (c : Callback) : bool * Callback :=
  if decide (i = id_default) then (false, c) else
  match slots_ c with
  | [] => (false, c)
  | first :: _ =>
      (* first *)
      let c1 :=
        if decide (id first = i)
        then unlink_first
               (reset_id 0
                  (set_callIter (checkErase (slots_ c) 0 (callIter_ c)) c))
        else c in
      (* iterate *)
      match find_before i (slots_ c1) with
      | Some n =>
          let c2 := reset_id n c1 in
          (true, set_callIter (checkErase (slots_ c2) n (callIter_ c2)) c2)
      | None => (false, c1)
      end
  end.

(** *** [clear] and the destructor *)

(** [for(auto& slot : slots_) slot.id.reset();] *)
Fixpoint reset_all (chain : list CallbackSlot) (s : Store)
  : list CallbackSlot * Store :=
  match chain with
  | [] => ([], s)
  | slot :: rest =>
      let '(i, s1) := id_reset (id slot) s in
      let '(rest', s2) := reset_all rest s1 in
      (mkSlot i (func slot) :: rest', s2)
  end.

(** [for(auto& slot : slots_) slot.id.reset(); slots_.clear();] *)
Definition clear (c : Callback) : Callback :=
  let '(_, s) := reset_all (slots_ c) (cells c) in
  set_slots [] (set_cells s c).

(** [~Callback()]: what is left of the registry is the memory its ids
    shared and what was written. *)
Definition destroy (c : Callback) : Store * list Event :=
  let '(_, s) := reset_all (slots_ c) (cells c) in (s, out c).

(** *** [call] *)

Inductive Outcome (A : Type) :=
| Done (a : A) (c : Callback)
| Failed (c : Callback)
| OutOfFuel.
Arguments Done {A} a c.
Arguments Failed {A} c.
Arguments OutOfFuel {A}.

(** [stackIter.current] of the innermost frame. *)
Definition cursor (c : Callback) : nat :=
  match callIter_ c with
  | f :: _ => current f
  | [] => 0%nat
  end.

Definition set_current (n : nat) (c : Callback) : Callback :=
  match callIter_ c with
  | f :: above => set_callIter (mkCallIter n (next f) :: above) c
  | [] => c
  end.

(** [CallIter stackIter; stackIter.above = iter; iter = &stackIter;] *)
Definition push_frame (c : Callback) : Callback :=
  set_callIter (mkIter 0 :: callIter_ c) c.

(** [iter = stackIter.above;] run by the call whose frame is the
    innermost one linked. *)
Definition pop_frame (c : Callback) : Callback :=
  set_callIter (tail (callIter_ c)) c.

(** [exec] runs the body of a listener, [loop] the
    [while(idx < slots.size())] of [call]; a nested [call] is what
    [call_with] makes of [loop].  The fuel bounds the depth of the
    recursion and the number of turns of the loop: a listener that calls
    [call] again without end, or keeps adding listeners, does not return. *)
Definition call_with (loop : Args → list Ret → Callback → Outcome (list Ret))
  (a : Args) (c : Callback) : Outcome (list Ret) :=
  match loop a [] (write CallBegin (push_frame c)) with
  | Done ret c' => Done ret (pop_frame (write CallEnd c'))
  | Failed c' => Failed c'
  | OutOfFuel => OutOfFuel
  end.

Fixpoint exec (fuel : nat) (p : Prog) (c : Callback) : Outcome Ret :=
  match fuel with
  | O => OutOfFuel
  | S fuel =>
      match p with
      | Return r => Done r c
      | Throw => Failed c
      | Disconnect i k =>
          let '(b, c') := disconnect i c in exec fuel (k b) c'
      | Add f k =>
          let '(i, c') := add f c in exec fuel (k i) c'
      | Call a k =>
          match call_with (loop fuel) a c with
          | Done ret c' => exec fuel (k ret) c'
          | Failed c' => Failed c'
          | OutOfFuel => OutOfFuel
          end
      | Clear k => exec fuel k (clear c)
      end
  end
with loop (fuel : nat) (a : Args) (ret : list Ret) (c : Callback)
  : Outcome (list Ret) :=
  match fuel with
  | O => OutOfFuel
  | S fuel =>
      let idx := cursor c in
      (* while(idx < slots.size()) { const auto& slot = slots[idx]; *)
      match slots_ c !! idx with
      | None => Done ret c
      | Some slot =>
          (* ++idx; *)
          let c1 :=
            set_current (S idx)
              (write (CallStep (length (callIter_ c)) idx (id slot) a) c) in
          (* ret.push_back(slot.func({cb, slot.id}, args...)); *)
          match exec fuel (func slot (id slot) a) c1 with
          | Done r c2 => loop fuel a (ret ++ [r]) c2
          | Failed c2 => Failed c2
          | OutOfFuel => OutOfFuel
          end
      end
  end.

(** [static std::vector<Ret> call(CB& cb, CallIter*& iter, const Slots& slots,
     Args... args)], entered through [Callback::call]. *)
Definition call (fuel : nat) (a : Args) (c : Callback) : Outcome (list Ret) :=
  call_with (loop fuel) a c.

(** The [void] specialisation runs the same loop and returns nothing. *)
Definition call_void (fuel : nat) (a : Args) (c : Callback) : Outcome unit :=
  match call fuel a c with
  | Done _ c' => Done tt c'
  | Failed c' => Failed c'
  | OutOfFuel => OutOfFuel
  end.

(** *** Predicates used in the statements *)

(** The frames that an outcome leaves linked, measured against those
    linked before: as many after a return, at least as many after a
    failure. *)
Definition frames_kept {A} (n : nat) (o : Outcome A) : Prop :=
  match o with
  | Done _ c' => length (callIter_ c') = n
  | Failed c' => (n ≤ length (callIter_ c'))%nat
  | OutOfFuel => True
  end.

(** The steps of a call at [depth] over the entries of [chain], which
    start at position [idx]. *)
Fixpoint steps (depth idx : nat) (chain : list CallbackSlot) (a : Args)
  : list Event :=
  match chain with
  | [] => []
  | slot :: rest => CallStep depth idx (id slot) a :: steps depth (S idx) rest a
  end.

Definition is_step_at (depth : nat) (e : Event) : bool :=
  match e with
  | CallStep d _ _ _ => bool_decide (d = depth)
  | _ => false
  end.

(** The steps of the call whose frame is the [depth]-th of the chain. *)
Definition own_steps (depth : nat) (evs : list Event) : list Event :=
  filter (λ e, is_step_at depth e = true) evs.

(** The event is no step of a call at [n] or nearer to the outermost. *)
Definition deeper (n : nat) (e : Event) : Prop :=
  match e with
  | CallStep d _ _ _ => (n < d)%nat
  | _ => True
  end.

(** What cancellations do to a frame below the innermost one: any number
    of [checkErase]. *)
Inductive repair : (CallIter → CallIter) → Prop :=
| repair_none : repair (λ f, f)
| repair_erase chain slot : repair (erase chain slot)
| repair_then g1 g2 : repair g1 → repair g2 → repair (g2 ∘ g1).

(** What a call leaves of the frames linked [before] it: after a return
    those very frames, their cursors changed by repairs only; after a
    failure more frames than before, its own among them. *)
Definition popped_iff_returned {A} (before : list CallIter) (o : Outcome A)
  : Prop :=
  match o with
  | Done _ c' => ∃ g, repair g ∧ callIter_ c' = g <$> before
  | Failed c' => (length before < length (callIter_ c'))%nat
  | OutOfFuel => True
  end.

(** A listener body that cancels nothing: no [disconnect], no [clear], also
    not in the listeners it registers. *)
Inductive cancel_free : Prog → Prop :=
| cancel_free_return r : cancel_free (Return r)
| cancel_free_throw : cancel_free Throw
| cancel_free_add f k :
    (∀ i a, cancel_free (f i a)) → (∀ i, cancel_free (k i)) →
    cancel_free (Add f k)
| cancel_free_call a k :
    (∀ ret, cancel_free (k ret)) → cancel_free (Call a k).

Definition cancel_free_chain (chain : list CallbackSlot) : Prop :=
  Forall (λ slot, ∀ i a, cancel_free (func slot i a)) chain.

(** Every listener of the chain only returns when called with [a]; [rets]
    are the values returned, in the order of the chain. *)
Definition returns_only (a : Args) (chain : list CallbackSlot) (rets : list Ret)
  : Prop :=
  Forall2 (λ slot r, func slot (id slot) a = Return r) chain rets.

(** [add] for each listener of a list in turn; the ids of the handles
    returned, in the order of the calls. *)
Fixpoint add_all (fs : list Listener) (c : Callback) : list ID * Callback :=
  match fs with
  | [] => ([], c)
  | f :: fs =>
      let '(i, c1) := add f c in
      let '(ids, c2) := add_all fs c1 in
      (i :: ids, c2)
  end.

End Callback.

Arguments Prog : clear implicits.
Arguments Listener : clear implicits.
Arguments CallbackSlot : clear implicits.
Arguments Event : clear implicits.
Arguments Callback : clear implicits.
Arguments Outcome : clear implicits.
Arguments repair : clear implicits.
Arguments Done {Args Ret ID Store A} a c.
Arguments Failed {Args Ret ID Store A} c.
Arguments OutOfFuel {Args Ret ID Store A}.


(** ** Handles and guards ([connection.hpp]) *)

(** [template <typename ID> class ConnectableT]: the interface
    [virtual bool disconnect(const ID& id) = 0]. *)
Class ConnectableT (C ID : Type) := {
  connectable_disconnect : ID → C → bool * C;
}.

#[global] Instance callback_connectable {Args Ret ID Store} `{!ConnID ID Store}
  : ConnectableT (Callback Args Ret ID Store) ID :=
  {| connectable_disconnect := disconnect |}.

(** A [C*] is the index of an object among those alive. *)
Definition ref : Type := nat.

Section Heap.
Context {C ID : Type} `{!ConnectableT C ID}.

(** The connectables alive ([objs]) and the calls
    [connectable_->disconnect(id_)] made so far, in order ([forwarded]). *)
Record Heap := mkHeap {
  objs : list C;
  forwarded : list (ref * ID);
}.

(** [connectable_->disconnect(id_)] *)
Definition forward (r : ref) (i : ID) (w : Heap) : Heap :=
  mkHeap (alter (λ o, (connectable_disconnect i o).2) r (objs w))
         (forwarded w ++ [(r, i)]).

End Heap.

Arguments Heap : clear implicits.

Module ConnectionT.
Section ConnectionT.
Context {C ID Store : Type} `{!ConnID ID Store} `{!ConnectableT C ID}.

(** [template <typename C, typename ID> class ConnectionT] with
    [C* connectable_ {}; ID id_ {};] *)
Record t := mk {
  connectable_ : option ref;
  id_ : ID;
}.

(** [if(connectable_) connectable_->disconnect(id_);
     connectable_ = {}; id_ = {};] *)
Definition disconnect (h : t) (w : Heap C ID) : t * Heap C ID :=
  (mk None id_default,
   match connectable_ h with Some r => forward r (id_ h) w | None => w end).

(** Modelled from the spec: [bool connected() const noexcept] is declared
    in [connection.hpp] and its body is not in the sources.  "[connected()]
    reports current validity; [...] for the tracked-id flavor it is an O(1)
    read of the shared flag": the validity of the id held. *)
Definition connected (h : t) (s : Store) : bool := id_valid (id_ h) s.

End ConnectionT.
Arguments t : clear implicits.
End ConnectionT.

Module UniqueConnectionT.
Section UniqueConnectionT.
Context {C ID Store : Type} `{!ConnID ID Store} `{!ConnectableT C ID}.

(** [template<typename C, typename ID> class UniqueConnectionT]; the
    pointer is the member the functions of the class name [conn_]. *)
Record t := mk {
  conn_ : option ref;
  id_ : ID;
}.

(** [UniqueConnectionT() = default;] *)
Definition empty : t := mk None id_default.

(** [UniqueConnectionT(C& conn, ID id) : conn_(&conn), id_(id) {}] *)
Definition make (r : ref) (i : ID) : t := mk (Some r) i.

(** [UniqueConnectionT(ConnectionT<C, ID> lhs) :
      conn_(lhs.connectable()), id_(lhs.id()) {}] *)
Definition of_connection (h : ConnectionT.t ID) : t :=
  mk (ConnectionT.connectable_ h) (ConnectionT.id_ h).

(** [void disconnect() { if(conn_) conn_->disconnect(id_);
      conn_ = {}; id_ = {}; }] *)
Definition disconnect (g : t) (w : Heap C ID) : t * Heap C ID :=
  (empty,
   match conn_ g with Some r => forward r (id_ g) w | None => w end).

(** [ID release() { auto cpy = id_; id_ = {}; conn_ = {}; return cpy; }] *)
Definition release (g : t) : ID * t := (id_ g, empty).

(** [~UniqueConnectionT() { try { disconnect(); } catch(...) {...} }]
    [disconnect] of the interface returns a [bool]; the handler is for an
    implementation that throws and is not entered otherwise. *)
Definition destroy (g : t) (w : Heap C ID) : t * Heap C ID := disconnect g w.


(** [operator=(UniqueConnectionT&& lhs)]: the guard assigned to, what is
    left of [lhs], and the connectables. *)
Definition move_assign (g lhs : t) (w : Heap C ID) : t * t * Heap C ID :=
  (mk (conn_ lhs) (id_ lhs), empty, (disconnect g w).2).

(** What a program does with one guard during its life. *)
Inductive op := Disconnect | Release | Destroy.

Definition step (o : op) (gw : t * Heap C ID) : t * Heap C ID :=
  match o with
  | Disconnect => disconnect gw.1 gw.2
  | Release => ((release gw.1).2, gw.2)
  | Destroy => destroy gw.1 gw.2
  end.

Definition run (ops : list op) (gw : t * Heap C ID) : t * Heap C ID :=
  foldl (λ gw o, step o gw) gw ops.

End UniqueConnectionT.
Arguments t : clear implicits.
End UniqueConnectionT.

(** ** Tracked ids over time *)

Module TrackedOps.
Import TrackedConnectionID.

(** What happens to the cells after some id was reset: ids are made and
    ids are reset. *)
Inductive op := Make (val : Z) | Reset (c : t).

Definition step (h : heap) (o : op) : heap :=
  match o with
  | Make val => (make val h).2
  | Reset c => (reset c h).2
  end.

Definition run (ops : list op) (h : heap) : heap := foldl step h ops.

(** The cell is allocated and holds zero. *)
Definition zeroed (l : loc) (h : heap) : Prop := h !! l = Some 0.

(** The cell holds zero or is not allocated. *)
Definition zeroed_or_free (l : loc) (h : heap) : Prop :=
  h !! l = Some 0 ∨ h !! l = None.

End TrackedOps.

(** ** Concrete registries

    Registries of [Callback<int(int)>] with the default [ConnectionID]. *)

Module Examples.
Import ConnectionID.

Definition Reg : Type := Callback Z Z ConnectionID.t unit.
Definition Fn : Type := Listener Z Z ConnectionID.t.

Definition empty_reg : Reg := new_callback tt.

(** A listener that returns [r]. *)
Definition returns (r : Z) : Fn := λ _ _, Return r.

(** A listener that fails. *)
Definition thrower : Fn := λ _ _, Throw.

(** A listener that cancels the registration with id [j], then returns. *)
Definition cancels (j r : Z) : Fn := λ _ _, Disconnect (mk j) (λ _, Return r).

(** A listener that disconnects the handle it is passed, then returns. *)
Definition cancels_itself (r : Z) : Fn := λ i _, Disconnect i (λ _, Return r).

(** A listener that clears the registry and registers two listeners. *)
Definition clears_and_adds : Fn :=
  λ _ _, Clear (Add (returns 10) (λ _, Add (returns 20) (λ _, Return 1))).

(** A listener that calls the registry again with argument 1 when it is
    called with argument 0. *)
Definition recurses (r : Z) : Fn :=
  λ _ a, if a =? 0 then Call 1 (λ _, Return r) else Return r.

(** A, B, C returning 1, 2, 3. *)
Definition abc : Reg :=
  (add_all [returns 1; returns 2; returns 3] empty_reg).2.

Definition one_thrower : Reg := (add thrower empty_reg).2.

(** A calls the registry again (when called with 0); B and C return. *)
Definition nesting : Reg :=
  (add_all [recurses 1; returns 2; returns 3] empty_reg).2.


(** Three listeners that each disconnect the handle they are passed. *)
Definition self_cancelling : Reg :=
  (add_all [cancels_itself 1; cancels_itself 2; cancels_itself 3] empty_reg).2.

(** The example of the specification: A, B, C return 1, 2, 3 and B's body
    cancels C. *)
Definition b_cancels_c : Reg :=
  (add_all [returns 1; cancels 3 2; returns 3] empty_reg).2.

(** A cancels B, the entry visited next; B and C return. *)
Definition cancelling_next : Reg :=
  (add_all [cancels 2 1; returns 2; returns 3] empty_reg).2.

Definition clearing : Reg := (add_all [clears_and_adds; returns 2] empty_reg).2.

(** Two listeners on a [TrackedCallback<int(int)>]; their ids share the
    cells 0 and 1 with the handles returned by [add]. *)
Definition tracked_ab : Callback Z Z TrackedConnectionID.t (list Z) :=
  (add_all [λ _ _, Return 1; λ _ _, Return 2] (new_callback [])).2.

End Examples.

(** ** More of the registry's interface ([callback.hpp]) *)

Section CallbackInterface.
Context {Args Ret ID Store : Type} `{!ConnID ID Store}.

(** [Conn operator+=(F&& func) { return add(std::forward<F>(func)); }] *)
Definition plus_assign (f : Listener Args Ret ID)
    (c : Callback Args Ret ID Store) : ID * Callback Args Ret ID Store :=
  add f c.

(** [Conn operator=(F&& func)
     { clear(); return add(std::forward<F>(func)); }] *)
Definition assign (f : Listener Args Ret ID)
    (c : Callback Args Ret ID Store) : ID * Callback Args Ret ID Store :=
  add f (clear c).

(** [n] times [operator=] with the same listener. *)
Definition assign_times (n : N) (f : Listener Args Ret ID)
    (c : Callback Args Ret ID Store) : Callback Args Ret ID Store :=
  N.iter n (λ c, (assign f c).2) c.

(** What client code does to a registry between calls: it registers
    ([add], [operator+=]), assigns ([operator=]), cancels and clears. *)
Inductive RegOp :=
| OpAdd (f : Listener Args Ret ID)
| OpPlusAssign (f : Listener Args Ret ID)
| OpAssign (f : Listener Args Ret ID)
| OpDisconnect (i : ID)
| OpClear.

(** One operation: the id of the handle it returns, if it returns one, and
    the registry afterwards. *)
Definition reg_step (o : RegOp) (c : Callback Args Ret ID Store)
  : option ID * Callback Args Ret ID Store :=
  match o with
  | OpAdd f => (Some (add f c).1, (add f c).2)
  | OpPlusAssign f => (Some (plus_assign f c).1, (plus_assign f c).2)
  | OpAssign f => (Some (assign f c).1, (assign f c).2)
  | OpDisconnect i => (None, (disconnect i c).2)
  | OpClear => (None, clear c)
  end.

(** The operations in turn: the ids handed out, in order, and the registry
    in the end. *)
Fixpoint run_ops (ops : list RegOp) (c : Callback Args Ret ID Store)
  : list ID * Callback Args Ret ID Store :=
  match ops with
  | [] => ([], c)
  | o :: ops =>
      let r := run_ops ops (reg_step o c).2 in
      (match (reg_step o c).1 with Some i => i :: r.1 | None => r.1 end, r.2)
  end.

(** How many ids the operations hand out. *)
Definition issues (o : RegOp) : nat :=
  match o with
  | OpAdd _ | OpPlusAssign _ | OpAssign _ => 1
  | OpDisconnect _ | OpClear => 0
  end.

Definition count_issued (ops : list RegOp) : nat :=
  foldr (λ o n, (issues o + n)%nat) 0%nat ops.

(** A listener body that, called with [a], registers listeners and then
    returns [r]; the listeners registered only return when called with
    [a], and [rs] are the values they return, in the order in which they
    are registered. *)
Inductive adds_then_returns (a : Args) : Prog Args Ret ID → list Ret → Ret → Prop :=
| adds_return r : adds_then_returns a (Return r) [] r
| adds_add (g : Listener Args Ret ID) (k : ID → Prog Args Ret ID) r' rs r :
    (∀ i, g i a = Return r') →
    (∀ i, adds_then_returns a (k i) rs r) →
    adds_then_returns a (Add g k) (r' :: rs) r.

(** Every listener of the chain is such a body; [results] holds, for each,
    the value it returns and the values of the listeners it registers. *)
Definition chain_adds (a : Args) (chain : list (CallbackSlot Args Ret ID))
    (results : list (Ret * list Ret)) : Prop :=
  Forall2 (λ slot rr, adds_then_returns a (func slot (id slot) a) rr.2 rr.1)
    chain results.

End CallbackInterface.

Arguments RegOp : clear implicits.

(** *** Invariants of the ids held by a registry *)

Section PlainIds.
Context {Args Ret : Type}.
Import ConnectionID.

(** Among the entries whose id is valid, the one further down the list
    has the larger id. *)
Definition ids_ascend (chain : list (CallbackSlot Args Ret ConnectionID.t))
  : Prop :=
  ∀ m1 m2 s1 s2,
    (m1 < m2)%nat → chain !! m1 = Some s1 → chain !! m2 = Some s2 →
    value (id s1) ≠ 0 → value (id s2) ≠ 0 →
    value (id s1) < value (id s2).

(** No entry carries an id above the counter, and the valid ids ascend. *)
Definition ids_issued (c : Callback Args Ret ConnectionID.t unit) : Prop :=
  0 ≤ highestID_ c ∧
  Forall (λ s, value (id s) ≤ highestID_ c) (slots_ c) ∧
  ids_ascend (slots_ c).

End PlainIds.

Section TrackedCells.
Context {Args Ret : Type}.
Import TrackedConnectionID.

(** Every cell that is not zero is the cell of the id of an entry. *)
Definition cells_owned
    (c : Callback Args Ret TrackedConnectionID.t (list Z)) : Prop :=
  ∀ l v, cells c !! l = Some v →
    v = 0 ∨ ∃ s, s ∈ slots_ c ∧ value (id s) = Some l.

End TrackedCells.

(** ** More concrete registries *)

Module MoreExamples.
Import ConnectionID Examples.

(** A and C return 1 and 3, B fails. *)
Definition b_throws : Reg :=
  (add_all [returns 1; thrower; returns 3] empty_reg).2.

(** A and C return 1 and 3; B calls the registry again (when called with
    0) and returns 2. *)
Definition nesting_in_b : Reg :=
  (add_all [returns 1; recurses 2; returns 3] empty_reg).2.

(** A listener that registers a listener returning 10 and returns [r]. *)
Definition adds_one (r : Z) : Fn := λ _ _, Add (returns 10) (λ _, Return r).

(** A registers a listener and returns 1, B returns 2. *)
Definition a_adds : Reg := (add_all [adds_one 1; returns 2] empty_reg).2.

(** A cancels the handle it is passed and returns 1; B and C return 2
    and 3. *)
Definition a_cancels_itself : Reg :=
  (add_all [cancels_itself 1; returns 2; returns 3] empty_reg).2.

(** [abc] while two calls are in progress: the inner one is about to
    invoke B, the outer one is about to invoke C. *)
Definition abc_two_frames : Reg := set_callIter [mkIter 1; mkIter 2] abc.

(** What a client does to a registry: two registrations, the first
    cancelled, all cleared, one assigned. *)
Definition session : list (RegOp Z Z ConnectionID.t) :=
  [OpAdd (returns 1); OpPlusAssign (returns 2); OpDisconnect (mk 1); OpClear;
   OpAssign (returns 3)].

(** Two registrations, and the second cancelled. *)
Definition two_then_cancel : list (RegOp Z Z ConnectionID.t) :=
  [OpAdd (returns 1); OpAdd (returns 2); OpDisconnect (mk 2)].

(** Two registrations on a registry with tracked ids. *)
Definition tracked_session : list (RegOp Z Z TrackedConnectionID.t) :=
  [OpAdd (λ _ _, Return 1); OpAdd (λ _ _, Return 2)].

End MoreExamples.
(** ** Basic facts about the registry operations *)

Section CallbackFacts.
Context {Args Ret ID Store : Type} `{!ConnID ID Store}.
Local Abbreviation Callback := (Callback Args Ret ID Store).
Local Abbreviation CallbackSlot := (CallbackSlot Args Ret ID).
Local Abbreviation Prog := (Prog Args Ret ID).
Local Abbreviation repair := (repair Args Ret ID).
Implicit Types (c : Callback) (chain : list CallbackSlot) (i : ID).

Lemma link_last_app chain (n : CallbackSlot) : link_last chain n = chain ++ [n].
Proof. induction chain as [|s chain IH]; simpl; [done | by rewrite IH]. Qed.

Lemma length_checkErase chain n (it : list CallIter) :
  length (checkErase chain n it) = length it.
Proof. induction it as [|f it IH]; simpl; [done | by rewrite IH]. Qed.

Lemma callIter_reset_id n c : callIter_ (reset_id n c) = callIter_ c.
Proof.
  unfold reset_id. destruct (slots_ c !! n); [|done].
  by destruct (id_reset _ _).
Qed.

Lemma out_reset_id n c : out (reset_id n c) = out c.
Proof.
  unfold reset_id. destruct (slots_ c !! n); [|done].
  by destruct (id_reset _ _).
Qed.

Lemma highestID_reset_id n c : highestID_ (reset_id n c) = highestID_ c.
Proof.
  unfold reset_id. destruct (slots_ c !! n); [|done].
  by destruct (id_reset _ _).
Qed.

Lemma length_slots_reset_id n c :
  length (slots_ (reset_id n c)) = length (slots_ c).
Proof.
  unfold reset_id. destruct (slots_ c !! n); [|done].
  destruct (id_reset _ _). simpl. by rewrite length_insert.
Qed.

Lemma length_callIter_disconnect i c :
  length (callIter_ (disconnect i c).2) = length (callIter_ c).
Proof.
  unfold disconnect. case_decide; [done|].
  destruct (slots_ c) as [|first rest]; [done|].
  set (c1 := if decide (id first = i) then _ else c).
  assert (length (callIter_ c1) = length (callIter_ c)) as Hc1.
  { subst c1. case_decide; [|done]. unfold unlink_first. simpl.
    by rewrite callIter_reset_id; simpl; rewrite length_checkErase. }
  destruct (find_before i (slots_ c1)); simpl; [|done].
  by rewrite length_checkErase, callIter_reset_id.
Qed.

Lemma out_disconnect i c : out (disconnect i c).2 = out c.
Proof.
  unfold disconnect. case_decide; [done|].
  destruct (slots_ c) as [|first rest]; [done|].
  set (c1 := if decide (id first = i) then _ else c).
  assert (out c1 = out c) as Hc1.
  { subst c1. case_decide; [|done]. unfold unlink_first. simpl.
    by rewrite out_reset_id. }
  destruct (find_before i (slots_ c1)); simpl; [|done].
  by rewrite out_reset_id.
Qed.

Lemma callIter_emplace (f : Listener Args Ret ID) c :
  callIter_ (emplace f c) = callIter_ c.
Proof. unfold emplace. by destruct (id_from_size _ _). Qed.

Lemma out_emplace (f : Listener Args Ret ID) c : out (emplace f c) = out c.
Proof. unfold emplace. by destruct (id_from_size _ _). Qed.

Lemma slots_emplace (f : Listener Args Ret ID) c :
  slots_ (emplace f c) =
  slots_ c ++ [mkSlot (id_from_size (size_t_incr (highestID_ c)) (cells c)).1 f].
Proof.
  unfold emplace. destruct (id_from_size _ _). simpl. apply link_last_app.
Qed.

Lemma highestID_emplace (f : Listener Args Ret ID) c :
  highestID_ (emplace f c) = size_t_incr (highestID_ c).
Proof. unfold emplace. by destruct (id_from_size _ _). Qed.

Lemma callIter_clear c : callIter_ (clear c) = callIter_ c.
Proof. unfold clear. by destruct (reset_all _ _). Qed.

Lemma out_clear c : out (clear c) = out c.
Proof. unfold clear. by destruct (reset_all _ _). Qed.

Lemma slots_clear c : slots_ (clear c) = [].
Proof. unfold clear. by destruct (reset_all _ _). Qed.

Lemma checkErase_erase chain n (it : list CallIter) :
  checkErase chain n it = erase chain n <$> it.
Proof. induction it as [|f it IH]; simpl; [done|]. by rewrite IH. Qed.

Lemma erase_null chain n (f : CallIter) : next f = None → erase chain n f = f.
Proof. intros Hf. unfold erase. rewrite Hf. by rewrite decide_False. Qed.

Lemma current_erase chain n (f : CallIter) : current (erase chain n f) = current f.
Proof. unfold erase. by case_decide. Qed.

Lemma repair_fmap_then (g1 g2 : CallIter → CallIter) (it : list CallIter) :
  g2 <$> (g1 <$> it) = (g2 ∘ g1) <$> it.
Proof. by rewrite <- list_fmap_compose. Qed.

(** [disconnect] changes the frames by repairs only. *)
Lemma disconnect_repairs i c :
  ∃ g, repair g ∧ callIter_ (disconnect i c).2 = g <$> callIter_ c.
Proof.
  unfold disconnect. case_decide.
  { exists (λ f, f). split; [apply repair_none|]. by rewrite list_fmap_id. }
  destruct (slots_ c) as [|first rest] eqn:Hs.
  { exists (λ f, f). split; [apply repair_none|]. by rewrite list_fmap_id. }
  set (c1 := if decide (id first = i) then _ else c).
  assert (∃ g, repair g ∧ callIter_ c1 = g <$> callIter_ c) as (g1 & Hg1 & Hc1).
  { subst c1. case_decide.
    - exists (erase (first :: rest) 0).
      split; [apply repair_erase|].
      unfold unlink_first. simpl. rewrite callIter_reset_id. simpl.
      by rewrite checkErase_erase.
    - exists (λ f, f). split; [apply repair_none|]. by rewrite list_fmap_id. }
  destruct (find_before i (slots_ c1)) as [n|]; simpl.
  - exists (erase (slots_ (reset_id n c1)) n ∘ g1).
    split; [apply repair_then; [done | apply repair_erase]|].
    by rewrite callIter_reset_id, checkErase_erase, Hc1, repair_fmap_then.
  - by exists g1.
Qed.

Lemma length_callIter_set_current n c :
  length (callIter_ (set_current n c)) = length (callIter_ c).
Proof. unfold set_current. by destruct c as [? ? ? [|f above] ?]. Qed.

Lemma frames_exec_loop (fuel : nat) :
  (∀ (p : Prog) c, frames_kept (length (callIter_ c)) (exec fuel p c)) ∧
  (∀ (a : Args) ret c, frames_kept (length (callIter_ c)) (loop fuel a ret c)).
Proof.
  induction fuel as [|fuel [IHe IHl]]; [by split|].
  split.
  - intros p c. destruct p as [r| |i k|f k|a k|k]; simpl.
    + done.
    + done.
    + destruct (disconnect i c) as [b c'] eqn:E.
      specialize (IHe (k b) c').
      replace c' with (disconnect i c).2 in IHe at 1 by (by rewrite E).
      by rewrite length_callIter_disconnect in IHe.
    + specialize (IHe (k (add f c).1) (add f c).2).
      unfold add in *. simpl in *. by rewrite callIter_emplace in IHe.
    + unfold call_with.
      specialize (IHl a [] (write CallBegin (push_frame c))).
      destruct (loop fuel a [] _) as [ret c'| c'|]; simpl in *; [| lia | done].
      specialize (IHe (k ret) (pop_frame (write CallEnd c'))).
      simpl in IHe. destruct (callIter_ c') as [|f above]; [done|].
      simpl in *. by replace (length (callIter_ c)) with (length above) by lia.
    + specialize (IHe k (clear c)). by rewrite callIter_clear in IHe.
  - intros a ret c. simpl.
    destruct (slots_ c !! cursor c) as [slot|]; [|done].
    set (c1 := set_current _ _).
    assert (length (callIter_ c1) = length (callIter_ c)) as Hc1
      by (subst c1; by rewrite length_callIter_set_current).
    specialize (IHe (func slot (id slot) a) c1). rewrite Hc1 in IHe.
    destruct (exec fuel _ c1) as [r c2|c2|]; simpl in *; [|done|done].
    specialize (IHl a (ret ++ [r]) c2). by rewrite IHe in IHl.
Qed.

(** A listener body changes the frames by repairs only; the loop of a
    call changes those below its own by repairs only. *)
Lemma repairs_exec_loop (fuel : nat) :
  (∀ (p : Prog) c r c',
      exec fuel p c = Done r c' →
      ∃ g, repair g ∧ callIter_ c' = g <$> callIter_ c) ∧
  (∀ (a : Args) ret c ret' c' f above,
      callIter_ c = f :: above →
      loop fuel a ret c = Done ret' c' →
      ∃ g f', repair g ∧ callIter_ c' = f' :: (g <$> above)).
Proof.
  induction fuel as [|fuel [IHe IHl]]; [by split|].
  split.
  - intros p c r c' Hrun.
    destruct p as [r0| |i k|f k|a k|k]; simpl in Hrun.
    + injection Hrun as <- <-. exists (λ f, f).
      split; [apply repair_none|]. by rewrite list_fmap_id.
    + done.
    + destruct (disconnect i c) as [b c1] eqn:E.
      destruct (IHe _ _ _ _ Hrun) as (g2 & Hg2 & H2).
      destruct (disconnect_repairs i c) as (g1 & Hg1 & H1).
      rewrite E in H1. simpl in H1.
      exists (g2 ∘ g1). split; [by apply repair_then|].
      by rewrite H2, H1, repair_fmap_then.
    + destruct (IHe _ _ _ _ Hrun) as (g & Hg & H).
      exists g. split; [done|]. by rewrite H, callIter_emplace.
    + unfold call_with in Hrun.
      destruct (loop fuel a [] (write CallBegin (push_frame c)))
        as [ret c1|c1|] eqn:Hloop; [|done|done].
      destruct (IHl a [] (write CallBegin (push_frame c)) ret c1 (mkIter 0)
                  (callIter_ c) eq_refl Hloop)
        as (g1 & f' & Hg1 & H1).
      destruct (IHe _ _ _ _ Hrun) as (g2 & Hg2 & H2).
      simpl in H2. rewrite H1 in H2. simpl in H2.
      exists (g2 ∘ g1). split; [by apply repair_then|].
      by rewrite H2, repair_fmap_then.
    + destruct (IHe _ _ _ _ Hrun) as (g & Hg & H).
      exists g. split; [done|]. by rewrite H, callIter_clear.
  - intros a ret c ret' c' f above Hit Hrun. simpl in Hrun.
    destruct (slots_ c !! cursor c) as [slot|].
    + set (c1 := set_current _ _) in Hrun.
      assert (callIter_ c1 = mkCallIter (S (cursor c)) (next f) :: above) as Hit1.
      { subst c1. unfold set_current, write. simpl. by rewrite Hit. }
      destruct (exec fuel (func slot (id slot) a) c1) as [r c2|c2|] eqn:Hexec;
        [|done|done].
      destruct (IHe _ _ _ _ Hexec) as (g1 & Hg1 & H1).
      rewrite Hit1 in H1. simpl in H1.
      destruct (IHl a _ c2 ret' c' _ _ H1 Hrun) as (g2 & f' & Hg2 & H2).
      exists (g2 ∘ g1), f'. split; [by apply repair_then|].
      by rewrite H2, repair_fmap_then.
    + injection Hrun as <- <-. exists (λ f, f), f.
      split; [apply repair_none|]. by rewrite list_fmap_id.
Qed.

End CallbackFacts.

(** ** [disconnect]: the value returned *)

Section DisconnectFacts.
Context {Args Ret ID Store : Type} `{!ConnID ID Store}.
Local Abbreviation Callback := (Callback Args Ret ID Store).
Local Abbreviation CallbackSlot := (CallbackSlot Args Ret ID).
Implicit Types (c : Callback) (chain : list CallbackSlot) (i : ID).

Lemma find_before_None i chain :
  Forall (λ s, id s ≠ i) (tail chain) → find_before i chain = None.
Proof.
  induction chain as [|s chain IH]; [done|].
  simpl. intros Hall. destruct chain as [|nx rest]; [done|].
  inversion Hall as [|? ? Hnx Hrest]; subst.
  rewrite decide_False by done.
  rewrite IH; [done|]. by simpl.
Qed.

Lemma slots_unlink_reset_first c first rest (it : list CallIter) :
  slots_ c = first :: rest →
  slots_ (unlink_first (reset_id 0 (set_callIter it c))) = rest.
Proof.
  intros Hs. unfold unlink_first, reset_id. simpl. rewrite Hs. simpl.
  by destruct (id_reset _ _).
Qed.

(** When the id is carried by the first entry and by no other, the entry
    is unlinked and the loop that follows finds nothing: [disconnect]
    returns [false]. *)
Lemma disconnect_first_unique i c first rest :
  i ≠ id_default →
  slots_ c = first :: rest →
  id first = i →
  Forall (λ s, id s ≠ i) rest →
  disconnect i c =
    (false,
     unlink_first
       (reset_id 0 (set_callIter (checkErase (slots_ c) 0 (callIter_ c)) c))) ∧
  slots_ (disconnect i c).2 = rest.
Proof.
  intros Hi Hs Hfirst Hrest. unfold disconnect.
  rewrite decide_False by done. rewrite Hs.
  rewrite decide_True by done.
  rewrite (slots_unlink_reset_first c first rest) by done.
  rewrite find_before_None.
  - split; [done|]. simpl. by apply (slots_unlink_reset_first c first).
  - destruct rest as [|s rest']; [done|]. simpl.
    by inversion Hrest.
Qed.

End DisconnectFacts.


(** ** The ids issued by [add] *)

Section IssuedIds.
Context {Args Ret : Type}.
Import ConnectionID.
Local Abbreviation Callback := (Callback Args Ret ConnectionID.t unit).
Local Abbreviation Listener := (Listener Args Ret ConnectionID.t).
Implicit Types (c : Callback) (f : Listener) (fs : list Listener).

Lemma add_id f c : (add f c).1 = mk (size_t_incr (highestID_ c)).
Proof.
  unfold add. cbn [fst]. rewrite slots_emplace. by rewrite last_snoc.
Qed.

Lemma add_slots f c :
  slots_ (add f c).2 = slots_ c ++ [mkSlot (mk (size_t_incr (highestID_ c))) f].
Proof. unfold add. cbn [snd]. by rewrite slots_emplace. Qed.

Lemma add_highestID f c : highestID_ (add f c).2 = size_t_incr (highestID_ c).
Proof. unfold add. cbn [snd]. by rewrite highestID_emplace. Qed.

Lemma size_t_incr_small n :
  0 ≤ n → n < SIZE_MAX → size_t_incr n = n + 1.
Proof.
  unfold size_t_incr, SIZE_MAX. intros ? ?. apply Z.mod_small. lia.
Qed.

Lemma add_all_unfold f fs c :
  add_all (f :: fs) c =
  ((add f c).1 :: (add_all fs (add f c).2).1, (add_all fs (add f c).2).2).
Proof.
  cbn [add_all]. destruct (add f c) as [i c1]. cbn [fst snd].
  by destruct (add_all fs c1).
Qed.

(** While the counter does not wrap, [add] hands out the values that follow
    the counter, one after the other, and appends an entry for each. *)
Lemma add_all_spec fs c :
  0 ≤ highestID_ c →
  highestID_ c + Z.of_nat (length fs) < size_t_modulus →
  StronglySorted Z.lt (value <$> (add_all fs c).1) ∧
  Forall (λ i, highestID_ c < value i) (add_all fs c).1 ∧
  id <$> slots_ (add_all fs c).2 = (id <$> slots_ c) ++ (add_all fs c).1.
Proof.
  revert c. induction fs as [|f fs IH]; intros c H0 Hlt.
  { simpl. split; [constructor|]. split; [constructor|]. by rewrite app_nil_r. }
  rewrite add_all_unfold. cbn [fst snd].
  assert (size_t_incr (highestID_ c) = highestID_ c + 1) as Hincr.
  { apply size_t_incr_small; [done|]. unfold SIZE_MAX. simpl length in Hlt. lia. }
  destruct (IH (add f c).2) as (Hsorted & Hall & Hslots).
  { rewrite add_highestID, Hincr. lia. }
  { rewrite add_highestID, Hincr. simpl length in Hlt. lia. }
  rewrite add_highestID, Hincr in Hall.
  rewrite add_id, Hincr, fmap_cons. cbn [value].
  split; [|split].
  - constructor; [done|].
    rewrite Forall_fmap. eapply Forall_impl; [exact Hall|].
    intros x Hx. cbn in *. lia.
  - constructor; [cbn; lia|].
    eapply Forall_impl; [exact Hall|]. intros x Hx. cbn in *. lia.
  - rewrite Hslots, add_slots, fmap_app, Hincr. cbn [fmap list_fmap id].
    by rewrite <- app_assoc.
Qed.

Lemma StronglySorted_lt_NoDup (l : list Z) : StronglySorted Z.lt l → NoDup l.
Proof.
  induction 1 as [|x l Hs IH Hall]; constructor; [|done].
  intros Hin. rewrite Forall_forall in Hall. specialize (Hall x Hin). lia.
Qed.

(** While the counter does not wrap: on a new registry, any sequence of
    fewer than 2^64 [add] operations is issued strictly increasing ids,
    none of them zero, and the ids of the live entries are those ids,
    pairwise distinct. *)
Theorem add_issues_increasing_ids fs :
  Z.of_nat (length fs) < size_t_modulus →
  StronglySorted Z.lt (value <$> (add_all fs (new_callback tt)).1) ∧
  Forall (λ i, value i ≠ 0) (add_all fs (new_callback tt)).1 ∧
  id <$> slots_ (add_all fs (new_callback tt)).2 = (add_all fs (new_callback tt)).1 ∧
  NoDup (id <$> slots_ (add_all fs (new_callback tt)).2).
Proof.
  intros Hlen.
  destruct (add_all_spec fs (new_callback tt)) as (Hs & Hall & Hslots);
    [done | simpl; lia |].
  simpl in Hall, Hslots.
  split; [done|]. split; [|split; [done|]].
  - eapply Forall_impl; [exact Hall|]. simpl. intros ? ?. lia.
  - rewrite Hslots. apply (NoDup_fmap_1 value).
    by apply StronglySorted_lt_NoDup.
Qed.

End IssuedIds.

(** ** Tracked ids *)

Section Tracked.
Import TrackedConnectionID TrackedOps.
Implicit Types (h : heap) (l : loc).

Lemma zeroed_reset l (c : t) h : zeroed l h → zeroed l (reset c h).2.
Proof.
  unfold zeroed, reset. cbn [snd]. intros Hl.
  destruct (value c) as [l'|]; [|done].
  destruct (decide (l' = l)) as [->|Hne].
  - rewrite list_lookup_insert_eq; [done|]. by eapply lookup_lt_Some.
  - by rewrite list_lookup_insert_ne.
Qed.

Lemma zeroed_make l val h : zeroed l h → zeroed l (make val h).2.
Proof.
  unfold zeroed, make. cbn [snd]. intros Hl. by apply lookup_app_l_Some.
Qed.

Lemma zeroed_run ops l h : zeroed l h → zeroed l (run ops h).
Proof.
  revert h. induction ops as [|o ops IH]; intros h Hl; [done|].
  simpl. apply IH. destruct o; simpl; [by apply zeroed_make | by apply zeroed_reset].
Qed.

Lemma zeroed_invalid (c : t) l h : value c = Some l → zeroed l h → valid c h = false.
Proof. unfold valid, zeroed. by intros -> ->. Qed.

(** [reset] on a tracked id.  [c] and [c'] are copies of one tracked id:
    they hold the same cell, allocated in [h].  Once [reset] has run on
    [c], [valid] is false for [c'], at once and after whatever is done to
    tracked ids later on.  (Which id a cancellation resets is another
    matter: see [disconnect].) *)
Theorem tracked_reset_reaches_every_copy h (c c' : t) (later : list op) :
  value c' = value c →
  (∀ l, value c = Some l → (l < length h)%nat) →
  valid c' (run later (reset c h).2) = false.
Proof.
  intros Hshare Halloc.
  destruct (value c) as [l|] eqn:Hc.
  - apply (zeroed_invalid c' l); [done|].
    apply zeroed_run. unfold zeroed, reset. cbn [snd]. rewrite Hc.
    apply list_lookup_insert_eq. by apply Halloc.
  - unfold valid. by rewrite Hshare.
Qed.

(** Two copies of the id made for value 5; one more id is made and reset
    afterwards. *)
Lemma tracked_reset_reaches_every_copy_witness :
  let h := (make 5 []).2 in
  let c := (make 5 []).1 in
  valid c h = true ∧
  valid c (run [Make 7; Reset (mk (Some 1%nat))] (reset c h).2) = false.
Proof.
  split; [reflexivity|].
  apply (tracked_reset_reaches_every_copy (make 5 []).2 (make 5 []).1
           (make 5 []).1 [Make 7; Reset (mk (Some 1%nat))]).
  - reflexivity.
  - intros l Hl. injection Hl as <-. simpl. lia.
Defined.

(** The same for a handle, with [connected] as the specification has it. *)
Lemma tracked_reset_disconnects_every_handle h (c : t)
    (handle : ConnectionT.t t) (later : list op) :
  value (ConnectionT.id_ handle) = value c →
  (∀ l, value c = Some l → (l < length h)%nat) →
  ConnectionT.connected handle (run later (reset c h).2) = false.
Proof.
  intros Hshare Halloc. unfold ConnectionT.connected.
  change (valid (ConnectionT.id_ handle) (run later (reset c h).2) = false).
  destruct (value c) as [l|] eqn:Hc.
  - apply (zeroed_invalid _ l); [done|].
    apply zeroed_run. unfold zeroed, reset. cbn [snd]. rewrite Hc.
    apply list_lookup_insert_eq. by apply Halloc.
  - unfold valid. by rewrite Hshare.
Qed.

(** *** The destructor of a registry with tracked ids *)

Context {Args Ret : Type}.
Local Abbreviation Slot := (CallbackSlot Args Ret TrackedConnectionID.t).

Lemma zeroed_or_free_reset l (c : t) h :
  zeroed_or_free l h → zeroed_or_free l (reset c h).2.
Proof.
  unfold zeroed_or_free, reset. cbn [snd]. intros Hl.
  destruct (value c) as [l'|]; [|done].
  destruct (decide (l' = l)) as [->|Hne].
  - destruct Hl as [Hl|Hl].
    + left. rewrite list_lookup_insert_eq; [done|]. by eapply lookup_lt_Some.
    + right. apply lookup_ge_None. rewrite length_insert. by apply lookup_ge_None.
  - by rewrite list_lookup_insert_ne.
Qed.

Lemma reset_establishes (c : t) l h :
  value c = Some l → zeroed_or_free l (reset c h).2.
Proof.
  unfold zeroed_or_free, reset. cbn [snd]. intros ->.
  destruct (decide (l < length h)%nat).
  - left. by apply list_lookup_insert_eq.
  - right. apply lookup_ge_None. rewrite length_insert. lia.
Qed.

Lemma reset_all_preserves (chain : list Slot) l h :
  zeroed_or_free l h → zeroed_or_free l (reset_all chain h).2.
Proof.
  revert h. induction chain as [|slot chain IH]; intros h Hl; [done|].
  cbn [reset_all]. simpl id_reset.
  destruct (reset (id slot) h) as [i h1] eqn:E1.
  specialize (IH h1). destruct (reset_all chain h1) as [rest h2]. simpl in *.
  apply IH. replace h1 with (reset (id slot) h).2 by (by rewrite E1).
  by apply zeroed_or_free_reset.
Qed.

Lemma reset_all_zeroes (chain : list Slot) (slot : Slot) l h :
  slot ∈ chain → value (id slot) = Some l →
  zeroed_or_free l (reset_all chain h).2.
Proof.
  revert h. induction chain as [|s chain IH]; intros h Hin Hl.
  { by apply not_elem_of_nil in Hin. }
  cbn [reset_all]. simpl id_reset.
  destruct (reset (id s) h) as [i h1] eqn:E1.
  pose proof (reset_all_preserves chain l h1) as Hpres.
  specialize (IH h1). destruct (reset_all chain h1) as [rest h2]. simpl in *.
  apply elem_of_cons in Hin as [->|Hin].
  - apply Hpres. replace h1 with (reset (id s) h).2 by (by rewrite E1).
    by apply reset_establishes.
  - by apply IH.
Qed.

Lemma zeroed_or_free_invalid (c : t) l h :
  value c = Some l → zeroed_or_free l h → valid c h = false.
Proof. unfold valid, zeroed_or_free. by intros -> [-> | ->]. Qed.

(** C10.  The destructor of a registry with tracked ids writes nothing
    (no listener is invoked), and afterwards [valid] is false for every
    tracked id that compares equal to the id of an entry that was still
    registered: it holds the cell which that entry's [reset] has zeroed. *)
Theorem destroy_resets_registered_ids
  (c : Callback Args Ret TrackedConnectionID.t heap) (slot : Slot) (i : t) :
  slot ∈ slots_ c →
  i = id slot →
  (destroy c).2 = out c ∧ valid i (destroy c).1 = false.
Proof.
  intros Hin ->. unfold destroy.
  pose proof (reset_all_zeroes (slots_ c) slot) as Hz.
  destruct (reset_all (slots_ c) (cells c)) as [rest h'] eqn:E.
  split; [done|]. simpl.
  destruct (value (id slot)) as [l|] eqn:Hl.
  - apply (zeroed_or_free_invalid _ l); [done|].
    specialize (Hz l (cells c) Hin eq_refl). by rewrite E in Hz.
  - unfold valid. by rewrite Hl.
Qed.

End Tracked.

(** ** Guards *)

Section Guards.
Context {C ID Store : Type} `{!ConnID ID Store} `{!ConnectableT C ID}.
Import UniqueConnectionT.
Local Abbreviation Guard := (UniqueConnectionT.t ID).
Local Abbreviation Heap := (Heap C ID).
Implicit Types (g : Guard) (w : Heap) (o : op) (ops : list op).

Lemma guard_step_clears o g w : (step o (g, w)).1 = empty.
Proof. by destruct o. Qed.

Lemma guard_step_empty o w : step o (empty, w) = (empty, w).
Proof. by destruct o. Qed.

Lemma guard_run_empty ops w : run ops (empty, w) = (empty, w).
Proof.
  induction ops as [|o ops IH]; [done|].
  unfold run in *. simpl. by rewrite guard_step_empty.
Qed.

Lemma guard_step_forwarded o g w :
  forwarded (step o (g, w)).2 =
  forwarded w ++
    match o, conn_ g with
    | (Disconnect | Destroy), Some r => [(r, id_ g)]
    | _, _ => []
    end.
Proof.
  destruct o; simpl; destruct (conn_ g); simpl; by rewrite ?app_nil_r.
Qed.

(** C9.  Whatever is done to a guard, the first [disconnect], destruction
    or [release] decides: it leaves the guard empty, and everything done
    afterwards changes nothing.  The call [conn_->disconnect(id_)] is
    therefore made at most once, for the registration the guard held, and
    it is made by the first operation unless that is [release] or the
    guard was empty. *)
Theorem guard_cancels_at_most_once o ops g w :
  run (o :: ops) (g, w) = step o (g, w) ∧
  (run (o :: ops) (g, w)).1 = empty ∧
  forwarded (run (o :: ops) (g, w)).2 =
    forwarded w ++
      match o, conn_ g with
      | (Disconnect | Destroy), Some r => [(r, id_ g)]
      | _, _ => []
      end ∧
  (length (forwarded (run (o :: ops) (g, w)).2) ≤ S (length (forwarded w)))%nat.
Proof.
  assert (run (o :: ops) (g, w) = step o (g, w)) as Hrun.
  { unfold run. simpl. fold (run ops (step o (g, w))).
    pose proof (guard_step_clears o g w) as Hc.
    destruct (step o (g, w)) as [g' w']. simpl in Hc. subst g'.
    apply guard_run_empty. }
  rewrite Hrun. split; [done|]. split; [apply guard_step_clears|].
  rewrite guard_step_forwarded. split; [done|].
  rewrite length_app. destruct o, (conn_ g); simpl; lia.
Qed.

End Guards.

(** ** Dispatch *)

Section Dispatch.
Context {Args Ret ID Store : Type} `{!ConnID ID Store}.
Local Abbreviation Callback := (Callback Args Ret ID Store).
Local Abbreviation CallbackSlot := (CallbackSlot Args Ret ID).
Local Abbreviation Prog := (Prog Args Ret ID).
Local Abbreviation repair := (repair Args Ret ID).
Local Abbreviation Event := (Event Args ID).
Implicit Types (c : Callback) (chain : list CallbackSlot) (i : ID).
Implicit Types (evs : list Event) (a : Args) (ret : list Ret).

Lemma current_cons c n above : callIter_ c = mkIter n :: above → cursor c = n.
Proof. unfold cursor. by intros ->. Qed.

Lemma exec_S fuel (p : Prog) c :
  exec (S fuel) p c =
  match p with
  | Return r => Done r c
  | Throw => Failed c
  | Disconnect i k => exec fuel (k (disconnect i c).1) (disconnect i c).2
  | Add f k => exec fuel (k (add f c).1) (add f c).2
  | Call a k =>
      match call fuel a c with
      | Done ret c' => exec fuel (k ret) c'
      | Failed c' => Failed c'
      | OutOfFuel => OutOfFuel
      end
  | Clear k => exec fuel k (clear c)
  end.
Proof.
  destruct p as [r| |i k|f k|a k|k]; try reflexivity.
  simpl. by destruct (disconnect i c).
Qed.

Lemma loop_S fuel a ret c :
  loop (S fuel) a ret c =
  match slots_ c !! cursor c with
  | None => Done ret c
  | Some slot =>
      match exec fuel (func slot (id slot) a)
              (set_current (S (cursor c))
                 (write (CallStep (length (callIter_ c)) (cursor c) (id slot) a) c))
      with
      | Done r c2 => loop fuel a (ret ++ [r]) c2
      | Failed c2 => Failed c2
      | OutOfFuel => OutOfFuel
      end
  end.
Proof. reflexivity. Qed.

Lemma call_unfold fuel a c :
  call fuel a c =
  match loop fuel a [] (write CallBegin (push_frame c)) with
  | Done ret c' => Done ret (pop_frame (write CallEnd c'))
  | Failed c' => Failed c'
  | OutOfFuel => OutOfFuel
  end.
Proof. reflexivity. Qed.

(** An outcome other than running out of fuel does not depend on the
    fuel: more fuel gives the same. *)
Lemma fuel_mono (fuel : nat) :
  (∀ (p : Prog) c fuel',
      (fuel ≤ fuel')%nat → exec fuel p c ≠ OutOfFuel →
      exec fuel' p c = exec fuel p c) ∧
  (∀ a ret c fuel',
      (fuel ≤ fuel')%nat → loop fuel a ret c ≠ OutOfFuel →
      loop fuel' a ret c = loop fuel a ret c).
Proof.
  induction fuel as [|fuel [IHe IHl]]; [by split|].
  split.
  - intros p c [|fuel'] Hle Hrun; [lia|].
    rewrite !exec_S in *.
    destruct p as [r| |i k|f k|a k|k]; try done.
    + apply IHe; [lia|done].
    + apply IHe; [lia|done].
    + rewrite !call_unfold in *.
      rewrite (IHl a [] _ fuel') by
        (try lia; intros E; by rewrite E in Hrun).
      destruct (loop fuel a [] _) as [ret c1|c1|]; [|done|done].
      apply IHe; [lia|done].
    + apply IHe; [lia|done].
  - intros a ret c [|fuel'] Hle Hrun; [lia|].
    rewrite !loop_S in *.
    destruct (slots_ c !! cursor c) as [slot|]; [|done].
    rewrite (IHe _ _ fuel') by (try lia; intros E; by rewrite E in Hrun).
    destruct (exec fuel _ _) as [r c2|c2|]; [|done|done].
    apply IHl; [lia|done].
Qed.

(** *** Listeners that only return *)

Lemma loop_returns_only chain : ∀ rets fuel a ret c n above,
  callIter_ c = mkIter n :: above →
  drop n (slots_ c) = chain →
  returns_only a chain rets →
  (length chain < fuel)%nat →
  loop fuel a ret c =
    Done (ret ++ rets)
      (set_current (n + length chain)
         (write_all (steps (S (length above)) n chain a) c)).
Proof.
  induction chain as [|slot chain IH]; intros rets fuel a ret c n above Hit Hdrop Hret Hfuel.
  - apply Forall2_nil_inv_l in Hret as ->.
    destruct fuel as [|fuel]; [simpl in Hfuel; lia|].
    simpl. rewrite (current_cons c n above Hit).
    assert (slots_ c !! n = None) as ->.
    { rewrite <- (Nat.add_0_r n), <- lookup_drop, Hdrop. done. }
    rewrite app_nil_r. f_equal.
    destruct c as [ce h sl it o]. simpl in *. subst it.
    unfold set_current, write_all. simpl.
    by rewrite app_nil_r, Nat.add_0_r.
  - apply Forall2_cons_inv_l in Hret as (r & rets' & Hr & Hrets & ->).
    destruct fuel as [|fuel]; [simpl in Hfuel; lia|].
    cbn [loop]. rewrite (current_cons c n above Hit).
    assert (slots_ c !! n = Some slot) as Hslot.
    { rewrite <- (Nat.add_0_r n), <- lookup_drop, Hdrop. done. }
    rewrite Hslot. rewrite Hr.
    destruct fuel as [|fuel]; [simpl in Hfuel; lia|].
    cbn [exec].
    set (c1 := set_current (S n) _).
    rewrite (IH rets' (S fuel) a (ret ++ [r]) c1 (S n) above).
    + f_equal; [by rewrite <- app_assoc|].
      destruct c as [ce h sl it o]. simpl in *. subst it c1.
      unfold set_current, write_all, write, set_callIter. simpl.
      rewrite <- app_assoc. simpl.
      by replace (S (n + length chain)) with (n + S (length chain))%nat by lia.
    + subst c1. destruct c as [ce h sl it o]. simpl in *. by subst it.
    + subst c1. destruct c as [ce h sl it o]. simpl in *. subst it. simpl.
      by rewrite (drop_S _ slot) in Hdrop; [injection Hdrop|].
    + done.
    + simpl in Hfuel. lia.
Qed.

Lemma call_returns_only fuel a c rets :
  returns_only a (slots_ c) rets →
  (length (slots_ c) < fuel)%nat →
  call fuel a c =
    Done rets
      (write_all
         (CallBegin :: steps (S (length (callIter_ c))) 0 (slots_ c) a ++ [CallEnd])
         c).
Proof.
  intros Hret Hfuel. unfold call, call_with.
  rewrite (loop_returns_only (slots_ c) rets fuel a []
             (write CallBegin (push_frame c)) 0 (callIter_ c)); try done.
  simpl. f_equal.
  destruct c as [ce h sl it o].
  unfold pop_frame, write, set_current, write_all, set_callIter. simpl.
  by rewrite <- !app_assoc.
Qed.

(** *** Listeners that cancel nothing *)

Lemma own_steps_deeper n evs :
  Forall (deeper n) evs → own_steps n evs = [].
Proof.
  induction 1 as [|e evs He _ IH]; [done|].
  unfold own_steps in *. rewrite filter_cons_False; [done|].
  destruct e as [|d idx i a|]; simpl in *; try done.
  rewrite bool_decide_eq_true. lia.
Qed.

Lemma deeper_weaken n m (e : Event) : (m ≤ n)%nat → deeper n e → deeper m e.
Proof. destruct e; simpl; [done| |done]. lia. Qed.

Lemma cancel_free_chain_snoc chain (slot : CallbackSlot) :
  cancel_free_chain chain →
  (∀ i a, cancel_free (func slot i a)) →
  cancel_free_chain (chain ++ [slot]).
Proof.
  intros H1 H2. apply Forall_app. split; [done|]. by constructor.
Qed.

Lemma cancel_free_exec_loop (fuel : nat) :
  (∀ (p : Prog) c r c',
      cancel_free p → cancel_free_chain (slots_ c) →
      exec fuel p c = Done r c' →
      callIter_ c' = callIter_ c ∧
      slots_ c `prefix_of` slots_ c' ∧
      cancel_free_chain (slots_ c') ∧
      ∃ evs, out c' = out c ++ evs ∧ Forall (deeper (length (callIter_ c))) evs) ∧
  (∀ a ret c ret' c' n above,
      cancel_free_chain (slots_ c) →
      callIter_ c = mkIter n :: above →
      (n ≤ length (slots_ c))%nat →
      loop fuel a ret c = Done ret' c' →
      callIter_ c' = mkIter (length (slots_ c')) :: above ∧
      slots_ c `prefix_of` slots_ c' ∧
      cancel_free_chain (slots_ c') ∧
      length ret' = (length ret + (length (slots_ c') - n))%nat ∧
      ∃ evs, out c' = out c ++ evs ∧
             own_steps (S (length above)) evs =
               steps (S (length above)) n (drop n (slots_ c')) a ∧
             Forall (deeper (length above)) evs).
Proof.
  induction fuel as [|fuel [IHe IHl]]; [by split|].
  split.
  - intros p c r c' Hp Hc Hrun.
    rewrite exec_S in Hrun.
    destruct Hp as [r0| |f k Hf Hk|a k Hk].
    + injection Hrun as <- <-. repeat split; try done.
      exists []. by rewrite app_nil_r.
    + done.
    + change (add f c).2 with (emplace f c) in Hrun.
      destruct (IHe (k (add f c).1) (emplace f c) r c')
        as (Hit & Hpre & Hcf & evs & Hout & Hevs); [done| |done|].
      { rewrite slots_emplace. by apply cancel_free_chain_snoc. }
      rewrite callIter_emplace in Hit, Hevs. rewrite out_emplace in Hout.
      rewrite slots_emplace in Hpre.
      repeat split; try done.
      * etrans; [|exact Hpre]. by apply prefix_app_r.
      * by exists evs.
    + rewrite call_unfold in Hrun.
      destruct (loop fuel a [] (write CallBegin (push_frame c)))
        as [ret c1|c1|] eqn:Hloop; [|done|done].
      destruct (IHl a [] (write CallBegin (push_frame c)) ret c1 0%nat
                  (callIter_ c) Hc eq_refl
                  ltac:(simpl; lia) Hloop)
        as (Hit1 & Hpre1 & Hcf1 & _ & evs1 & Hout1 & _ & Hevs1).
      simpl in Hpre1, Hout1.
      destruct (IHe (k ret) (pop_frame (write CallEnd c1)) r c')
        as (Hit & Hpre & Hcf & evs & Hout & Hevs); [done|done|done|].
      simpl in Hit, Hpre, Hout, Hevs. rewrite Hit1 in Hit, Hevs. simpl in Hit, Hevs.
      repeat split; try done.
      * by etrans.
      * exists ([CallBegin] ++ evs1 ++ [CallEnd] ++ evs).
        split; [rewrite Hout, Hout1; by rewrite <- !app_assoc|].
        repeat (apply Forall_app; split); try done; by repeat constructor.
  - intros a ret c ret' c' n above Hc Hit Hn Hrun.
    rewrite loop_S, Hit in Hrun. rewrite (current_cons c n above Hit) in Hrun.
    simpl length in Hrun.
    destruct (slots_ c !! n) as [slot|] eqn:Hslot.
    + set (c1 := set_current (S n) _) in Hrun.
      assert (callIter_ c1 = mkIter (S n) :: above) as Hit1.
      { subst c1. unfold set_current, write. simpl. by rewrite Hit. }
      assert (slots_ c1 = slots_ c) as Hs1.
      { subst c1. unfold set_current, write. simpl. by rewrite Hit. }
      assert (out c1 = out c ++ [CallStep (S (length above)) n (id slot) a]) as Ho1.
      { subst c1. unfold set_current, write. simpl. by rewrite Hit. }
      destruct (exec fuel (func slot (id slot) a) c1) as [r c2|c2|] eqn:Hexec;
        [|done|done].
      destruct (IHe (func slot (id slot) a) c1 r c2)
        as (Hit2 & Hpre2 & Hcf2 & evs2 & Hout2 & Hevs2);
        [|by rewrite Hs1|done|].
      { unfold cancel_free_chain in Hc. rewrite Forall_forall in Hc. apply Hc.
        apply list_elem_of_lookup. by exists n. }
      rewrite Hit1 in Hit2, Hevs2. rewrite Hs1 in Hpre2. simpl in Hevs2.
      pose proof (lookup_lt_Some _ _ _ Hslot) as Hlt.
      pose proof (prefix_length _ _ Hpre2) as Hlen2.
      destruct (IHl a (ret ++ [r]) c2 ret' c' (S n) above Hcf2 Hit2
                  ltac:(lia) Hrun)
        as (Hit' & Hpre' & Hcf' & Hlen' & evs' & Hout' & Hown' & Hevs').
      pose proof (prefix_length _ _ Hpre') as Hlen3.
      repeat split; try done.
      * by etrans.
      * rewrite Hlen', length_app. simpl. lia.
      * exists ([CallStep (S (length above)) n (id slot) a] ++ evs2 ++ evs').
        split; [rewrite Hout', Hout2, Ho1; by rewrite <- !app_assoc|].
        split.
        -- unfold own_steps in *. rewrite !filter_app.
           fold (own_steps (S (length above)) evs2).
           rewrite (own_steps_deeper _ evs2 Hevs2), Hown'. simpl.
           rewrite filter_cons_True by (simpl; by rewrite bool_decide_eq_true).
           rewrite filter_nil. simpl.
           rewrite (drop_S (slots_ c') slot n); [done|].
           eapply prefix_lookup_Some; [|exact Hpre'].
           by eapply prefix_lookup_Some.
        -- repeat (apply Forall_app; split); try done.
           ++ constructor; [simpl; lia | constructor].
           ++ eapply Forall_impl; [exact Hevs2|].
              intros e. apply deeper_weaken. lia.
    + injection Hrun as <- <-.
      apply lookup_ge_None in Hslot.
      assert (n = length (slots_ c)) as -> by lia.
      repeat split; try done.
      * lia.
      * exists []. rewrite app_nil_r, drop_all. by repeat split.
Qed.

Lemma call_cancel_free fuel a c ret c' :
  cancel_free_chain (slots_ c) →
  call fuel a c = Done ret c' →
  callIter_ c' = callIter_ c ∧
  slots_ c `prefix_of` slots_ c' ∧
  length ret = length (slots_ c') ∧
  ∃ evs, out c' = out c ++ [CallBegin] ++ evs ++ [CallEnd] ∧
         own_steps (S (length (callIter_ c))) evs =
           steps (S (length (callIter_ c))) 0 (slots_ c') a.
Proof.
  intros Hc Hrun. rewrite call_unfold in Hrun.
  destruct (loop fuel a [] (write CallBegin (push_frame c)))
    as [ret1 c1|c1|] eqn:Hloop; [|done|done].
  injection Hrun as <- <-.
  destruct (proj2 (cancel_free_exec_loop fuel) a []
              (write CallBegin (push_frame c)) ret1 c1 0%nat (callIter_ c)
              Hc eq_refl ltac:(simpl; lia) Hloop)
    as (Hit1 & Hpre1 & Hcf1 & Hlen1 & evs1 & Hout1 & Hown1 & Hevs1).
  simpl in *. rewrite Hit1. simpl.
  repeat split; try done.
  - lia.
  - exists evs1. rewrite Hout1. split; [by rewrite <- !app_assoc|done].
Qed.

(** C4.  In a registry whose listeners cancel nothing, a call that
    returns has invoked the listener of every entry of the list exactly
    once and in the order of the list (the steps of its own frame are those
    of positions 0, 1, ... in turn); the list still starts with the entries
    that were live when the call began, in their order of registration; one
    result was collected per entry; and the frame is popped.  When the
    listeners only return, the call does return, with their results in
    that order. *)
Theorem call_invokes_each_listener_once a c :
  (cancel_free_chain (slots_ c) →
   ∀ fuel ret c',
      call fuel a c = Done ret c' →
      callIter_ c' = callIter_ c ∧
      slots_ c `prefix_of` slots_ c' ∧
      length ret = length (slots_ c') ∧
      ∃ evs, out c' = out c ++ [CallBegin] ++ evs ++ [CallEnd] ∧
             own_steps (S (length (callIter_ c))) evs =
               steps (S (length (callIter_ c))) 0 (slots_ c') a) ∧
  (∀ fuel rets,
      returns_only a (slots_ c) rets →
      (length (slots_ c) < fuel)%nat →
      call fuel a c =
        Done rets
          (write_all
             (CallBegin :: steps (S (length (callIter_ c))) 0 (slots_ c) a
                ++ [CallEnd]) c)).
Proof.
  split.
  - intros Hc fuel ret c' Hrun. by apply (call_cancel_free fuel).
  - intros fuel rets Hret Hfuel. by apply call_returns_only.
Qed.

Lemma call_repairs fuel a c ret c' :
  call fuel a c = Done ret c' →
  ∃ g, repair g ∧ callIter_ c' = g <$> callIter_ c.
Proof.
  intros Hrun. rewrite call_unfold in Hrun.
  destruct (loop fuel a [] (write CallBegin (push_frame c)))
    as [ret1 c1|c1|] eqn:Hloop; [|done|done].
  injection Hrun as <- <-.
  destruct (proj2 (repairs_exec_loop fuel) a [] (write CallBegin (push_frame c))
              ret1 c1 (mkIter 0) (callIter_ c) eq_refl Hloop)
    as (g & f' & Hg & H).
  exists g. split; [done|]. simpl. by rewrite H.
Qed.

(** [call] pops the frame it pushed when its loop runs to its end: the
    frames linked afterwards are those linked before the call,
    so the registry's innermost-frame pointer is the frame it was (frames
    are told apart by their place in the chain; their cursors have been
    changed by the repairs of cancellations only).  When a listener fails,
    the failure reaches the caller of [call] with the frame still linked:
    [iter = stackIter.above] is the last statement of the loop's function
    and is not run.  Both specialisations of [call] behave so. *)
Theorem call_pops_frame_iff_it_returns (fuel : nat) a c :
  popped_iff_returned (callIter_ c) (call fuel a c) ∧
  popped_iff_returned (callIter_ c) (call_void fuel a c).
Proof.
  assert (popped_iff_returned (callIter_ c) (call fuel a c)) as H.
  { destruct (call fuel a c) as [ret c'|c'|] eqn:Hcall; simpl; [| |done].
    - by apply (call_repairs fuel a c ret).
    - rewrite call_unfold in Hcall.
      pose proof (proj2 (frames_exec_loop fuel) a []
                    (write CallBegin (push_frame c))) as Hl.
      destruct (loop fuel a [] _) as [ret1 c1|c1|]; [done| |done].
      injection Hcall as <-. simpl in Hl. lia. }
  split; [done|].
  unfold call_void. by destruct (call fuel a c).
Qed.


(** *** Cancelling during a call *)

Lemma find_before_Some j chain m :
  find_before j chain = Some m → ∃ s, chain !! S m = Some s ∧ id s = j.
Proof.
  revert m. induction chain as [|s0 chain IH]; intros m; [done|].
  simpl. destruct chain as [|nx rest]; [done|].
  case_decide as Hnx.
  - intros [= <-]. by exists nx.
  - destruct (find_before j (nx :: rest)) as [m'|] eqn:E; [|done].
    intros [= <-]. destruct (IH m' eq_refl) as (s & Hs & Hid). by exists s.
Qed.

End Dispatch.

(** * Further properties of the registry, the handles and the ids *)

(** ** [disconnect] *)

Section DisconnectMore.
Context {Args Ret ID Store : Type} `{!ConnID ID Store}.
Local Abbreviation Callback := (Callback Args Ret ID Store).
Local Abbreviation CallbackSlot := (CallbackSlot Args Ret ID).
Implicit Types (c : Callback) (chain : list CallbackSlot) (i : ID).

Lemma find_before_is_Some i chain :
  is_Some (find_before i chain) ↔ ∃ s, s ∈ tail chain ∧ id s = i.
Proof.
  split.
  - intros [m Hm]. destruct (find_before_Some i chain m Hm) as (s & Hs & Hid).
    exists s. split; [|done]. destruct chain as [|s0 chain]; [done|].
    simpl in *. by eapply list_elem_of_lookup_2.
  - intros (s & Hin & Hid).
    destruct (find_before i chain) as [m|] eqn:E; [by eexists|].
    exfalso. induction chain as [|s0 chain IH]; [by apply not_elem_of_nil in Hin|].
    simpl in *. destruct chain as [|nx rest]; [by apply not_elem_of_nil in Hin|].
    case_decide as Hnx; [done|].
    destruct (find_before i (nx :: rest)) as [m'|] eqn:E'; [done|].
    apply elem_of_cons in Hin as [->|Hin]; [done|].
    by apply IH.
Qed.

(** The chain that the loop of [disconnect] searches: the one left by the
    branch for the first entry. *)
Lemma slots_after_first_branch i c first rest (it : list CallIter) :
  slots_ c = first :: rest →
  slots_ (if decide (id first = i)
          then unlink_first (reset_id 0 (set_callIter it c))
          else c)
  = if decide (id first = i) then rest else first :: rest.
Proof.
  intros Hs. case_decide; [|done].
  by apply (slots_unlink_reset_first c first rest).
Qed.

Lemma func_slots_reset_id n c :
  func <$> slots_ (reset_id n c) = func <$> slots_ c.
Proof.
  unfold reset_id. destruct (slots_ c !! n) as [slot|] eqn:E; [|done].
  destruct (id_reset _ _). simpl.
  rewrite list_fmap_insert. simpl.
  apply list_insert_id. by rewrite list_lookup_fmap, E.
Qed.

(** [checkErase] reads of the chain only whether a node has a successor. *)
Lemma checkErase_length chain chain' n (it : list CallIter) :
  length chain = length chain' →
  checkErase chain n it = checkErase chain' n it.
Proof.
  intros Hlen. rewrite !checkErase_erase. apply list_fmap_ext.
  intros j f _. unfold erase, node_next. by rewrite Hlen.
Qed.

(** A frame whose [next] is null is not changed by [checkErase]. *)
Lemma checkErase_null chain n (it : list CallIter) :
  Forall (λ f, next f = None) it → checkErase chain n it = it.
Proof.
  induction 1 as [|f it Hf _ IH]; simpl; [done|].
  by rewrite IH, erase_null.
Qed.

(** The frames that [call] links have [next] null; [disconnect] leaves
    such frames exactly as they are. *)
Lemma disconnect_leaves_call_frames i c :
  Forall (λ f, next f = None) (callIter_ c) →
  callIter_ (disconnect i c).2 = callIter_ c.
Proof.
  intros Hnull. unfold disconnect. case_decide; [done|].
  destruct (slots_ c) as [|first rest]; [done|].
  set (c1 := if decide (id first = i) then _ else c).
  assert (callIter_ c1 = callIter_ c) as Hc1.
  { subst c1. case_decide; [|done]. unfold unlink_first. simpl.
    rewrite callIter_reset_id. simpl. by apply checkErase_null. }
  destruct (find_before i (slots_ c1)); simpl; [|done].
  rewrite callIter_reset_id, Hc1. by apply checkErase_null.
Qed.

Lemma current_checkErase chain n (it : list CallIter) :
  current <$> checkErase chain n it = current <$> it.
Proof.
  rewrite checkErase_erase, <- list_fmap_compose. apply list_fmap_ext.
  intros j f _. apply current_erase.
Qed.

Lemma find_before_app i pre (p s : CallbackSlot) post :
  Forall (λ x, id x ≠ i) (tail (pre ++ [p])) →
  id s = i →
  find_before i (pre ++ p :: s :: post) = Some (length pre).
Proof.
  intros Hall Hs. induction pre as [|x pre IH].
  - simpl. by rewrite decide_True.
  - simpl in Hall. change ((x :: pre) ++ p :: s :: post)
      with (x :: (pre ++ p :: s :: post)).
    destruct pre as [|y pre'].
    + simpl in *. inversion Hall as [|? ? Hp _]; subst.
      rewrite decide_False by done. by rewrite decide_True.
    + simpl in Hall. inversion Hall as [|? ? Hy Hrest]; subst.
      change (find_before (id s) (x :: ((y :: pre') ++ p :: s :: post)))
        with (if decide (id y = id s) then Some 0%nat
              else S <$> find_before (id s) ((y :: pre') ++ p :: s :: post)).
      rewrite decide_False by done.
      rewrite IH; [done|]. by simpl.
Qed.

(** X1.  [disconnect] of an id carried by an entry that is not the first.
    The loop stops at the entry before ([it], with [it->next->id == id]),
    and it is [it] that is handled: the id of that entry is reset and
    [checkErase] is called for it.  The entry that carries the id keeps its id
    and its place in the list, and [true] is returned. *)
Theorem disconnect_later_entry_resets_its_predecessor i c pre p s post :
  i ≠ id_default →
  slots_ c = pre ++ p :: s :: post →
  Forall (λ x, id x ≠ i) (pre ++ [p]) →
  id s = i →
  (disconnect i c).1 = true ∧
  slots_ (disconnect i c).2 =
    pre ++ mkSlot (id_reset (id p) (cells c)).1 (func p) :: s :: post ∧
  cells (disconnect i c).2 = (id_reset (id p) (cells c)).2 ∧
  callIter_ (disconnect i c).2
    = checkErase (slots_ c) (length pre) (callIter_ c).
Proof.
  intros Hi Hs Hall His. unfold disconnect.
  rewrite decide_False by done.
  destruct (slots_ c) as [|first rest] eqn:Hc.
  { by destruct pre. }
  assert (id first ≠ i) as Hfirst.
  { destruct pre as [|x pre']; simpl in *; inversion Hs; subst;
      by inversion Hall. }
  rewrite decide_False by done. rewrite Hc, Hs.
  rewrite find_before_app; [|by apply Forall_tail|done].
  assert (slots_ c !! length pre = Some p) as Hp.
  { rewrite Hc, Hs. by apply list_lookup_middle. }
  unfold reset_id. rewrite Hp.
  destruct (id_reset (id p) (cells c)) as [i' s'] eqn:Hr. simpl.
  split; [done|]. split; [|split; [done|]].
  - rewrite Hc, Hs. rewrite insert_app_r_alt by lia.
    by rewrite Nat.sub_diag.
  - apply checkErase_length. by rewrite length_insert, Hc, Hs.
Qed.

(** X2.  [disconnect] does not write the index that [call] reads.  When
    the first entry is unlinked (it carries the id, which is not the
    default id, and no other entry does), every frame of a call in
    progress keeps its [current], and the entries have moved up under it:
    the frame finds at its index the entry that was behind the one it
    found there before. *)
Theorem disconnect_first_leaves_the_index_behind
    i c first rest (j : nat) (f : CallIter) :
  i ≠ id_default →
  slots_ c = first :: rest →
  id first = i →
  Forall (λ s, id s ≠ i) rest →
  callIter_ c !! j = Some f →
  ∃ f', callIter_ (disconnect i c).2 !! j = Some f' ∧
        current f' = current f ∧
        slots_ (disconnect i c).2 !! current f' = slots_ c !! S (current f).
Proof.
  intros Hi Hs Hfirst Hrest Hf.
  destruct (disconnect_first_unique i c first rest Hi Hs Hfirst Hrest)
    as [Hd Hslots].
  rewrite Hslots. rewrite Hd. cbn [snd].
  unfold unlink_first. simpl. rewrite callIter_reset_id. simpl.
  rewrite checkErase_erase.
  exists (erase (slots_ c) 0 f). split.
  { by rewrite list_lookup_fmap, Hf. }
  rewrite current_erase. split; [done|]. by rewrite Hs.
Qed.

(** X3.  [disconnect] of the default id, or of an id that no entry
    carries, returns [false] and leaves the registry as it is: nothing is
    unlinked, no id is reset and no frame is touched. *)
Theorem disconnect_unknown_id_changes_nothing i c :
  i = id_default ∨ Forall (λ s, id s ≠ i) (slots_ c) →
  disconnect i c = (false, c).
Proof.
  intros Hi. unfold disconnect.
  case_decide as Hd; [done|].
  destruct Hi as [Hi|Hall]; [done|].
  destruct (slots_ c) as [|first rest] eqn:Hs; [done|].
  inversion Hall as [|? ? Hfirst Hrest]; subst.
  rewrite decide_False by done. rewrite Hs.
  by rewrite find_before_None.
Qed.

(** X4.  What [disconnect] returns.  It returns [true] exactly when the id
    is not the default id and is carried by an entry that the search loop
    reaches: an entry other than the first, and, when the first entry
    carries the id too (and is unlinked), other than the second. *)
Theorem disconnect_returns_true_iff i c :
  (disconnect i c).1 = true ↔
  i ≠ id_default ∧
  ∃ first rest,
    slots_ c = first :: rest ∧
    ∃ s, s ∈ tail (if decide (id first = i) then rest else first :: rest) ∧
         id s = i.
Proof.
  unfold disconnect. case_decide as Hd.
  { simpl. split; [done|]. by intros [? _]. }
  destruct (slots_ c) as [|first rest] eqn:Hs.
  { simpl. split; [done|]. by intros (_ & ? & ? & ? & _). }
  pose proof (slots_after_first_branch i c first rest
                (checkErase (first :: rest) 0 (callIter_ c)) Hs)
    as Hc1.
  set (c1 := if decide (id first = i) then _ else c) in *.
  pose proof (find_before_is_Some i (slots_ c1)) as Hfind.
  rewrite Hc1 in Hfind.
  destruct (find_before i (slots_ c1)) as [n|] eqn:E; rewrite Hc1 in E; simpl.
  - split; [|done]. intros _. split; [done|].
    exists first, rest. split; [done|]. apply Hfind. rewrite E. by eexists.
  - split; [done|]. intros (_ & first' & rest' & [= <- <-] & Hs').
    apply Hfind in Hs' as [? Hsome]. by rewrite E in Hsome.
Qed.

(** X5.  [disconnect] unlinks at most the first entry.  The listeners
    registered afterwards are those registered before, in the same order,
    without the first one when the id is not the default id and the first
    entry carries it; an entry further down the list is never unlinked,
    whatever [disconnect] returns. *)
Theorem disconnect_unlinks_only_the_first i c :
  func <$> slots_ (disconnect i c).2 =
  match slots_ c with
  | first :: rest =>
      if decide (i ≠ id_default ∧ id first = i)
      then func <$> rest
      else func <$> slots_ c
  | [] => []
  end.
Proof.
  unfold disconnect. case_decide as Hd.
  { simpl. destruct (slots_ c) as [|first rest]; [done|].
    rewrite decide_False; [done|]. by intros [? _]. }
  destruct (slots_ c) as [|first rest] eqn:Hs; [by simpl; rewrite Hs|].
  pose proof (slots_after_first_branch i c first rest
                (checkErase (first :: rest) 0 (callIter_ c)) Hs)
    as Hc1.
  set (c1 := if decide (id first = i) then _ else c) in *.
  assert (func <$> slots_ (match find_before i (slots_ c1) with
                           | Some n =>
                               (true, set_callIter
                                        (checkErase (slots_ (reset_id n c1)) n
                                           (callIter_ (reset_id n c1)))
                                        (reset_id n c1))
                           | None => (false, c1)
                           end).2 = func <$> slots_ c1) as ->.
  { destruct (find_before i (slots_ c1)); simpl; [|done].
    apply func_slots_reset_id. }
  rewrite Hc1. destruct (decide (id first = i)).
  - rewrite decide_True; done.
  - rewrite decide_False; [done|]. by intros [_ ?].
Qed.

(** X6.  [checkErase] reaches the frame of every call in progress.  After
    [checkErase] for an entry no frame of the chain has its [next] on that
    entry, the innermost no more than the outer ones; a [next] that was
    elsewhere is where it was; a second [checkErase] for the same entry
    changes nothing; and no frame's [current] is written. *)
Theorem checkErase_leaves_no_cursor_on_the_entry
    chain slot (it : list CallIter) :
  Forall (λ f, next f ≠ Some slot) (checkErase chain slot it) ∧
  checkErase chain slot (checkErase chain slot it) = checkErase chain slot it ∧
  (∀ j f, it !! j = Some f → next f ≠ Some slot →
          checkErase chain slot it !! j = Some f) ∧
  current <$> checkErase chain slot it = current <$> it.
Proof.
  assert (∀ f : CallIter, next (erase chain slot f) ≠ Some slot) as Hne.
  { intros f. unfold erase, node_next. case_decide; simpl; [|done].
    case_decide; [|done]. intros [=]. lia. }
  split; [|split; [|split]].
  - induction it as [|f it IH]; simpl; constructor; [apply Hne | done].
  - induction it as [|f it IH]; simpl; [done|]. rewrite IH. f_equal.
    unfold erase at 1. by rewrite decide_False.
  - intros j f Hj Hf. rewrite checkErase_erase, list_lookup_fmap, Hj. simpl.
    unfold erase. by rewrite decide_False.
  - apply current_checkErase.
Qed.

End DisconnectMore.

(** ** [add], [operator=], [clear] and the counter *)

Section RegistryOps.
Context {Args Ret ID Store : Type} `{!ConnID ID Store}.
Local Abbreviation Callback := (Callback Args Ret ID Store).
Local Abbreviation CallbackSlot := (CallbackSlot Args Ret ID).
Local Abbreviation Listener := (Listener Args Ret ID).
Local Abbreviation RegOp := (RegOp Args Ret ID).
Implicit Types (c : Callback) (f : Listener) (i : ID).

(** What holds of a registry before [disconnect] holds after it, when the
    three things [disconnect] does preserve it: writing the frames,
    resetting the id of an entry, and unlinking the first entry after its
    id has been reset. *)
Lemma disconnect_preserves (P : Callback → Prop) :
  (∀ it c, P c → P (set_callIter it c)) →
  (∀ n c, P c → P (reset_id n c)) →
  (∀ c, P c → P (unlink_first (reset_id 0 c))) →
  ∀ i c, P c → P (disconnect i c).2.
Proof.
  intros Hit Hreset Hunlink i c Hc. unfold disconnect.
  case_decide; [done|].
  destruct (slots_ c) as [|first rest]; [done|].
  set (c1 := if decide (id first = i) then _ else c).
  assert (P c1) as Hc1.
  { subst c1. case_decide; [|done]. by apply Hunlink, Hit. }
  destruct (find_before i (slots_ c1)); simpl; [|done].
  by apply Hit, Hreset.
Qed.

Lemma highestID_disconnect i c : highestID_ (disconnect i c).2 = highestID_ c.
Proof.
  apply (disconnect_preserves (λ c', highestID_ c' = highestID_ c)); [..|done].
  - done.
  - intros n c' <-. apply highestID_reset_id.
  - intros c' <-. unfold unlink_first. simpl. apply highestID_reset_id.
Qed.

(** X7.  What [disconnect] never does.  Whatever the id, [disconnect]
    invokes no listener and writes no output, leaves the counter of ids as
    it is, and neither pushes nor pops a frame. *)
Theorem disconnect_invokes_no_listener i c :
  out (disconnect i c).2 = out c ∧
  highestID_ (disconnect i c).2 = highestID_ c ∧
  length (callIter_ (disconnect i c).2) = length (callIter_ c).
Proof.
  split; [apply out_disconnect|].
  split; [apply highestID_disconnect | apply length_callIter_disconnect].
Qed.

Lemma highestID_clear c : highestID_ (clear c) = highestID_ c.
Proof. unfold clear. by destruct (reset_all _ _). Qed.

Lemma run_ops_cons (o : RegOp) ops c :
  run_ops (o :: ops) c =
  (match (reg_step o c).1 with
   | Some i => i :: (run_ops ops (reg_step o c).2).1
   | None => (run_ops ops (reg_step o c).2).1
   end, (run_ops ops (reg_step o c).2).2).
Proof. done. Qed.

(** X8.  [add] appends.  The entry made for the listener is linked after
    the last entry; its id is made from the incremented counter and is the
    id of the handle returned.  The entries registered before keep their
    places, and no frame and no output is touched. *)
Theorem add_appends_an_entry f c :
  (add f c).1 = (id_from_size (size_t_incr (highestID_ c)) (cells c)).1 ∧
  slots_ (add f c).2 = slots_ c ++ [mkSlot (add f c).1 f] ∧
  highestID_ (add f c).2 = size_t_incr (highestID_ c) ∧
  callIter_ (add f c).2 = callIter_ c ∧
  out (add f c).2 = out c.
Proof.
  assert ((add f c).1 = (id_from_size (size_t_incr (highestID_ c)) (cells c)).1)
    as Hid.
  { unfold add. cbn [fst]. rewrite slots_emplace. by rewrite last_snoc. }
  split; [done|]. rewrite Hid. unfold add. cbn [snd].
  by rewrite slots_emplace, highestID_emplace, callIter_emplace, out_emplace.
Qed.

(** X9.  [operator=] leaves exactly one listener.  Whatever was registered
    is dropped and the entry of the listener assigned is the only one; the
    counter is not reset but incremented, so the id issued is the one [add]
    would have issued; the frames of calls in progress are left as they
    were. *)
Theorem assign_leaves_one_listener f c :
  slots_ (assign f c).2 = [mkSlot (assign f c).1 f] ∧
  highestID_ (assign f c).2 = size_t_incr (highestID_ c) ∧
  callIter_ (assign f c).2 = callIter_ c ∧
  out (assign f c).2 = out c.
Proof.
  unfold assign, add. cbn [fst snd].
  rewrite slots_emplace, highestID_emplace, callIter_emplace, out_emplace.
  rewrite slots_clear, highestID_clear, callIter_clear, out_clear.
  by rewrite app_nil_l.
Qed.

End RegistryOps.

(** ** The ids of a registry with plain ids, across its operations *)

Section PlainIdsFacts.
Context {Args Ret : Type}.
Import ConnectionID.
Local Abbreviation Callback := (Callback Args Ret ConnectionID.t unit).
Local Abbreviation CallbackSlot := (CallbackSlot Args Ret ConnectionID.t).
Local Abbreviation Listener := (Listener Args Ret ConnectionID.t).
Local Abbreviation RegOp := (RegOp Args Ret ConnectionID.t).
Implicit Types (c : Callback) (f : Listener) (ops : list RegOp).

Lemma ids_issued_set_callIter it c : ids_issued c → ids_issued (set_callIter it c).
Proof. done. Qed.

Lemma ids_issued_reset_id n c : ids_issued c → ids_issued (reset_id n c).
Proof.
  intros (H0 & Hle & Hasc). unfold reset_id.
  destruct (slots_ c !! n) as [slot|] eqn:Hn; [|done].
  unfold ids_issued. simpl. split; [done|]. split.
  - by apply Forall_insert.
  - intros m1 m2 s1 s2 Hlt H1 H2 Hv1 Hv2.
    apply list_lookup_insert_Some in H1 as [(_ & <- & _)|[_ H1]]; [done|].
    apply list_lookup_insert_Some in H2 as [(_ & <- & _)|[_ H2]]; [done|].
    by apply (Hasc m1 m2).
Qed.

Lemma ids_issued_unlink_first c : ids_issued c → ids_issued (unlink_first c).
Proof.
  intros (H0 & Hle & Hasc). unfold ids_issued, unlink_first. simpl.
  split; [done|]. split; [by apply Forall_tail|].
  intros m1 m2 s1 s2 Hlt H1 H2 Hv1 Hv2.
  rewrite lookup_tail in H1, H2.
  apply (Hasc (S m1) (S m2)); [lia|done..].
Qed.

Lemma ids_issued_disconnect i c : ids_issued c → ids_issued (disconnect i c).2.
Proof.
  apply (disconnect_preserves ids_issued).
  - apply ids_issued_set_callIter.
  - apply ids_issued_reset_id.
  - intros c' Hc'. by apply ids_issued_unlink_first, ids_issued_reset_id.
Qed.

Lemma ids_issued_clear c : ids_issued c → ids_issued (clear c).
Proof.
  intros (H0 & _ & _). unfold ids_issued.
  rewrite slots_clear, highestID_clear.
  split; [done|]. split; [constructor|].
  intros m1 m2 s1 s2 _ H1. by rewrite lookup_nil in H1.
Qed.

Lemma ids_issued_add f c :
  highestID_ c < SIZE_MAX → ids_issued c → ids_issued (add f c).2.
Proof.
  intros Hmax (H0 & Hle & Hasc). unfold ids_issued.
  rewrite add_slots, add_highestID, size_t_incr_small by done.
  split; [lia|]. split.
  - apply Forall_app. split.
    + eapply Forall_impl; [exact Hle|]. simpl. intros ? ?. lia.
    + repeat constructor. simpl. lia.
  - intros m1 m2 s1 s2 Hlt H1 H2 Hv1 Hv2.
    apply lookup_app_Some in H2 as [H2|[Hge H2]].
    + rewrite lookup_app_l in H1 by (apply lookup_lt_Some in H2; lia).
      by apply (Hasc m1 m2).
    + apply list_lookup_singleton_Some in H2 as [Hm2 <-]. simpl.
      apply lookup_app_Some in H1 as [H1|[Hge1 H1]].
      * rewrite Forall_lookup in Hle. specialize (Hle _ _ H1). simpl in Hle. lia.
      * apply lookup_lt_Some in H1. simpl in H1. lia.
Qed.

(** One operation keeps the invariant and counts the counter up when it
    returns a handle, whose id is then the new value of the counter. *)
Lemma reg_step_ids_issued (o : RegOp) c :
  ids_issued c →
  highestID_ c + Z.of_nat (issues o) < size_t_modulus →
  ids_issued (reg_step o c).2 ∧
  highestID_ (reg_step o c).2 = highestID_ c + Z.of_nat (issues o) ∧
  match (reg_step o c).1 with
  | Some i => value i = highestID_ c + 1
  | None => True
  end.
Proof.
  intros Hc Hlt. pose proof Hc as (H0 & _ & _).
  assert (issues o = 1%nat → size_t_incr (highestID_ c) = highestID_ c + 1)
    as Hincr.
  { intros Ho. rewrite Ho in Hlt.
    apply size_t_incr_small; [done|]. unfold SIZE_MAX. lia. }
  destruct o as [f|f|f|i|]; cbn [reg_step fst snd issues] in *;
    unfold plus_assign, assign.
  - rewrite add_highestID, add_id, Hincr by done. cbn [value].
    split; [|by split]. apply ids_issued_add; [unfold SIZE_MAX; lia|done].
  - rewrite add_highestID, add_id, Hincr by done. cbn [value].
    split; [|by split]. apply ids_issued_add; [unfold SIZE_MAX; lia|done].
  - rewrite add_highestID, add_id, highestID_clear, Hincr by done. cbn [value].
    split; [|by split].
    apply ids_issued_add; [rewrite highestID_clear; unfold SIZE_MAX; lia|].
    by apply ids_issued_clear.
  - rewrite highestID_disconnect.
    split; [by apply ids_issued_disconnect|]. split; [lia|done].
  - rewrite highestID_clear.
    split; [by apply ids_issued_clear|]. split; [lia|done].
Qed.

(** The operations keep the invariant and return ascending ids above the
    counter. *)
Lemma run_ops_ids_issued ops : ∀ c,
  ids_issued c →
  highestID_ c + Z.of_nat (count_issued ops) < size_t_modulus →
  ids_issued (run_ops ops c).2 ∧
  StronglySorted Z.lt (value <$> (run_ops ops c).1) ∧
  Forall (λ i, highestID_ c < value i) (run_ops ops c).1.
Proof.
  induction ops as [|o ops IH]; intros c Hc Hlt.
  { simpl. split; [done|]. split; constructor. }
  rewrite run_ops_cons. cbn [fst snd].
  change (count_issued (o :: ops)) with (issues o + count_issued ops)%nat in Hlt.
  destruct (reg_step_ids_issued o c Hc ltac:(lia)) as (Hinv1 & Hh1 & Hid).
  destruct (IH (reg_step o c).2 Hinv1 ltac:(lia)) as (Hinv & Hsorted & Hall).
  rewrite Hh1 in Hall. split; [done|].
  destruct (reg_step o c).1 as [i|] eqn:Hi.
  - assert (issues o = 1%nat) as Ho.
    { destruct o; try done; simpl in Hi; discriminate. }
    rewrite Ho in Hall. rewrite fmap_cons. split.
    + constructor; [done|]. rewrite Forall_fmap.
      eapply Forall_impl; [exact Hall|]. intros x Hx. cbn in *. lia.
    + constructor; [lia|].
      eapply Forall_impl; [exact Hall|]. intros x Hx. cbn in *. lia.
  - split; [done|].
    eapply Forall_impl; [exact Hall|]. intros x Hx. cbn in *. lia.
Qed.

Lemma assign_times_succ (n : N) f c :
  assign_times (N.succ n) f c = (assign f (assign_times n f c)).2.
Proof. unfold assign_times. by rewrite N.iter_succ. Qed.

Lemma highestID_assign f c :
  highestID_ (assign f c).2 = size_t_incr (highestID_ c).
Proof. unfold assign. by rewrite add_highestID, highestID_clear. Qed.

Lemma slots_assign f c :
  slots_ (assign f c).2 = [mkSlot (mk (size_t_incr (highestID_ c))) f].
Proof.
  unfold assign. by rewrite add_slots, slots_clear, highestID_clear.
Qed.

(** [operator=] again and again: the counter goes on and wraps, and one
    entry is registered at any time. *)
Lemma highestID_assign_times (n : N) f c :
  0 ≤ highestID_ c < size_t_modulus →
  highestID_ (assign_times n f c) = (highestID_ c + Z.of_N n) mod size_t_modulus.
Proof.
  intros Hc. induction n as [|n IH] using N.peano_ind.
  - unfold assign_times. simpl. rewrite Z.add_0_r. symmetry.
    by apply Z.mod_small.
  - rewrite assign_times_succ, highestID_assign, IH. unfold size_t_incr.
    rewrite Zplus_mod_idemp_l. f_equal. lia.
Qed.

Lemma slots_assign_times (n : N) f c :
  0 ≤ highestID_ c < size_t_modulus →
  slots_ (assign_times (N.succ n) f c)
  = [mkSlot (mk ((highestID_ c + Z.of_N (N.succ n)) mod size_t_modulus)) f].
Proof.
  intros Hc. rewrite assign_times_succ, slots_assign.
  rewrite highestID_assign_times by done. unfold size_t_incr.
  do 3 f_equal. rewrite Zplus_mod_idemp_l. f_equal. lia.
Qed.

Lemma ids_issued_new : ids_issued (new_callback tt : Callback).
Proof.
  unfold ids_issued. simpl. split; [done|]. split; [constructor|].
  intros m1 m2 s1 s2 _ H1. by rewrite lookup_nil in H1.
Qed.

(** X10.  The ids handed out on one registry ascend, whatever is done in
    between.  Over any sequence of [add], [operator+=], [operator=],
    [disconnect] and [clear] that hands out fewer than 2^64 ids, the ids of the handles
    returned are strictly increasing in the order of the calls, and none is
    the invalid id: neither [disconnect] nor [clear] nor [operator=] lets
    an id be issued a second time. *)
Theorem ids_ascend_across_operations ops :
  Z.of_nat (count_issued ops) < size_t_modulus →
  StronglySorted Z.lt (value <$> (run_ops ops (new_callback tt)).1) ∧
  Forall (λ i, valid i = true) (run_ops ops (new_callback tt)).1.
Proof.
  intros Hlt.
  destruct (run_ops_ids_issued ops (new_callback tt) ids_issued_new)
    as (_ & Hsorted & Hall); [simpl; lia|].
  split; [done|].
  eapply Forall_impl; [exact Hall|]. simpl. intros i Hi.
  unfold valid. apply negb_true_iff, Z.eqb_neq. lia.
Qed.

(** X11.  The entries of a registry never share a valid id.  After any
    sequence of [add], [operator+=], [operator=], [disconnect] and [clear]
    that hands out fewer than 2^64 ids, two entries that carry the same valid id are the
    same entry; so a valid id names at most one registration. *)
Theorem valid_ids_name_one_entry ops (m1 m2 : nat) (s1 s2 : CallbackSlot) :
  Z.of_nat (count_issued ops) < size_t_modulus →
  slots_ (run_ops ops (new_callback tt)).2 !! m1 = Some s1 →
  slots_ (run_ops ops (new_callback tt)).2 !! m2 = Some s2 →
  id s1 = id s2 →
  valid (id s1) = true →
  m1 = m2.
Proof.
  intros Hlt H1 H2 Heq Hvalid.
  destruct (run_ops_ids_issued ops (new_callback tt) ids_issued_new)
    as ((_ & _ & Hasc) & _ & _); [simpl; lia|].
  assert (value (id s1) ≠ 0) as Hv1.
  { unfold valid in Hvalid. by apply negb_true_iff, Z.eqb_neq in Hvalid. }
  assert (value (id s2) ≠ 0) as Hv2 by (by rewrite <- Heq).
  destruct (Nat.lt_trichotomy m1 m2) as [Hlt12|[->|Hgt]]; [|done|].
  - pose proof (Hasc m1 m2 s1 s2 Hlt12 H1 H2 Hv1 Hv2) as Hval.
    rewrite Heq in Hval. lia.
  - pose proof (Hasc m2 m1 s2 s1 Hgt H2 H1 Hv2 Hv1) as Hval.
    rewrite Heq in Hval. lia.
Qed.

End PlainIdsFacts.

(** ** The cells of a registry with tracked ids, across its operations *)

Section TrackedRegistry.
Context {Args Ret : Type}.
Import TrackedConnectionID TrackedOps.
Local Abbreviation Callback := (Callback Args Ret TrackedConnectionID.t heap).
Local Abbreviation CallbackSlot := (CallbackSlot Args Ret TrackedConnectionID.t).
Local Abbreviation Listener := (Listener Args Ret TrackedConnectionID.t).
Local Abbreviation RegOp := (RegOp Args Ret TrackedConnectionID.t).
Implicit Types (c : Callback) (f : Listener) (ops : list RegOp) (h : heap).

Lemma length_reset_all (chain : list CallbackSlot) h :
  length (reset_all chain h).2 = length h.
Proof.
  revert h. induction chain as [|slot chain IH]; intros h; [done|].
  cbn [reset_all]. simpl id_reset.
  destruct (reset (id slot) h) as [i h1] eqn:E1.
  specialize (IH h1). destruct (reset_all chain h1) as [rest h2]. simpl in *.
  rewrite IH. replace h1 with (reset (id slot) h).2 by (by rewrite E1).
  unfold reset. cbn [snd]. destruct (value (id slot)); [|done].
  by rewrite length_insert.
Qed.

(** When every cell that is not zero belongs to an entry of the chain,
    resetting the ids of the chain leaves no cell that is not zero. *)
Lemma reset_all_all_zero (chain : list CallbackSlot) h :
  (∀ l v, h !! l = Some v →
     v = 0 ∨ ∃ s, s ∈ chain ∧ value (id s) = Some l) →
  Forall (λ v, v = 0) (reset_all chain h).2.
Proof.
  intros Hown. apply Forall_lookup. intros l v' Hl.
  assert (is_Some (h !! l)) as [v Hv].
  { apply lookup_lt_is_Some. rewrite <- (length_reset_all chain h).
    by eapply lookup_lt_Some. }
  assert (zeroed_or_free l (reset_all chain h).2) as [Hz|Hz].
  { destruct (Hown l v Hv) as [->|(s & Hin & Hs)].
    - apply reset_all_preserves. by left.
    - by apply (reset_all_zeroes chain s). }
  - rewrite Hz in Hl. by injection Hl.
  - by rewrite Hz in Hl.
Qed.

Lemma all_zero_invalid h (i : t) : Forall (λ v, v = 0) h → valid i h = false.
Proof.
  intros Hall. unfold valid. destruct (value i) as [l|]; [|done].
  destruct (h !! l) as [v|] eqn:Hl; [|done].
  rewrite Forall_lookup in Hall. by rewrite (Hall l v Hl).
Qed.

Lemma cells_owned_set_callIter it c : cells_owned c → cells_owned (set_callIter it c).
Proof. done. Qed.

Lemma cells_owned_reset_id n c : cells_owned c → cells_owned (reset_id n c).
Proof.
  intros Hown. unfold reset_id.
  destruct (slots_ c !! n) as [slot|] eqn:Hn; [|done].
  unfold cells_owned. simpl. intros l v Hl.
  assert (value (id slot) ≠ Some l → cells c !! l = Some v →
          v = 0 ∨ ∃ s, s ∈ <[n:=mkSlot (mk None) (func slot)]> (slots_ c) ∧
                       value (id s) = Some l) as Hother.
  { intros Hne Hv. destruct (Hown l v Hv) as [->|(s & Hin & Hs)]; [by left|].
    right. exists s. split; [|done].
    apply list_elem_of_lookup_1 in Hin as [m Hm].
    apply (list_elem_of_lookup_2 _ m).
    rewrite list_lookup_insert_ne; [done|].
    intros <-. rewrite Hn in Hm. injection Hm as <-. done. }
  destruct (value (id slot)) as [l0|] eqn:Hv0.
  - apply list_lookup_insert_Some in Hl as [(_ & <- & _)|[Hne Hl]]; [by left|].
    apply Hother; [congruence|done].
  - by apply Hother.
Qed.

Lemma head_reset_id c (x : CallbackSlot) :
  slots_ (reset_id 0 c) !! 0%nat = Some x → value (id x) = None.
Proof.
  unfold reset_id. destruct (slots_ c !! 0%nat) as [slot|] eqn:H0.
  - simpl. intros Hx.
    apply list_lookup_insert_Some in Hx as [(_ & <- & _)|[? _]]; done.
  - intros Hx. by rewrite H0 in Hx.
Qed.

Lemma cells_owned_unlink_reset c :
  cells_owned c → cells_owned (unlink_first (reset_id 0 c)).
Proof.
  intros Hown. pose proof (cells_owned_reset_id 0 c Hown) as Hown'.
  pose proof (head_reset_id c) as Hhead.
  unfold cells_owned, unlink_first in *. simpl.
  intros l v Hl. destruct (Hown' l v Hl) as [->|(s & Hin & Hs)]; [by left|].
  right. exists s. split; [|done].
  destruct (slots_ (reset_id 0 c)) as [|x rest]; [by apply not_elem_of_nil in Hin|].
  apply elem_of_cons in Hin as [->|Hin]; [|done].
  specialize (Hhead x eq_refl). congruence.
Qed.

Lemma cells_owned_disconnect i c : cells_owned c → cells_owned (disconnect i c).2.
Proof.
  apply (disconnect_preserves cells_owned).
  - apply cells_owned_set_callIter.
  - apply cells_owned_reset_id.
  - apply cells_owned_unlink_reset.
Qed.

Lemma cells_clear c : cells (clear c) = (reset_all (slots_ c) (cells c)).2.
Proof. unfold clear. by destruct (reset_all _ _). Qed.

Lemma cells_clear_all_zero c :
  cells_owned c → Forall (λ v, v = 0) (cells (clear c)).
Proof. intros Hown. rewrite cells_clear. by apply reset_all_all_zero. Qed.

Lemma cells_owned_clear c : cells_owned c → cells_owned (clear c).
Proof.
  intros Hown l v Hl. left.
  pose proof (cells_clear_all_zero c Hown) as Hall.
  rewrite Forall_lookup in Hall. by apply (Hall l).
Qed.

Lemma tracked_add_id f c : (add f c).1 = mk (Some (length (cells c))).
Proof.
  unfold add. cbn [fst]. rewrite slots_emplace. by rewrite last_snoc.
Qed.

Lemma tracked_add_slots f c :
  slots_ (add f c).2 = slots_ c ++ [mkSlot (mk (Some (length (cells c)))) f].
Proof. unfold add. cbn [snd]. by rewrite slots_emplace. Qed.

Lemma tracked_add_cells f c :
  cells (add f c).2 = cells c ++ [size_t_incr (highestID_ c)].
Proof. done. Qed.

Lemma cells_owned_add f c : cells_owned c → cells_owned (add f c).2.
Proof.
  intros Hown l v Hl. rewrite tracked_add_cells in Hl. rewrite tracked_add_slots.
  apply lookup_app_Some in Hl as [Hl|[Hge Hl]].
  - destruct (Hown l v Hl) as [->|(s & Hin & Hs)]; [by left|].
    right. exists s. split; [|done]. apply elem_of_app. by left.
  - apply list_lookup_singleton_Some in Hl as [Hl <-].
    right. exists (mkSlot (mk (Some (length (cells c)))) f).
    split; [apply elem_of_app; right; by apply list_elem_of_singleton|].
    simpl. f_equal. lia.
Qed.

Lemma cells_owned_run_ops ops : ∀ c, cells_owned c → cells_owned (run_ops ops c).2.
Proof.
  induction ops as [|o ops IH]; intros c Hown; [done|].
  rewrite run_ops_cons. cbn [snd]. apply IH.
  destruct o as [f|f|f|i|]; cbn [reg_step snd].
  - by apply cells_owned_add.
  - by apply cells_owned_add.
  - by apply cells_owned_add, cells_owned_clear.
  - by apply cells_owned_disconnect.
  - by apply cells_owned_clear.
Qed.

Lemma cells_owned_new : cells_owned (new_callback [] : Callback).
Proof. intros l v Hl. simpl in Hl. by rewrite lookup_nil in Hl. Qed.

(** X12.  When a registry with tracked ids is destroyed, no id it has ever
    issued is valid any more.  Whatever sequence of [add], [operator+=],
    [operator=], [disconnect] and [clear] the registry has gone through, after the
    destructor every cell it has allocated holds zero: the cells of the
    entries still registered are zeroed by the destructor, those of the
    entries cancelled or cleared before were zeroed then. *)
Theorem destroy_invalidates_every_id_issued ops (i : t) :
  Forall (λ v, v = 0) (destroy (run_ops ops (new_callback [])).2).1 ∧
  valid i (destroy (run_ops ops (new_callback [])).2).1 = false.
Proof.
  pose proof (cells_owned_run_ops ops _ cells_owned_new) as Hown.
  set (c := (run_ops ops (new_callback [])).2) in *.
  assert (Forall (λ v, v = 0) (destroy c).1) as Hall.
  { unfold destroy.
    pose proof (reset_all_all_zero (slots_ c) (cells c) Hown) as Hz.
    by destruct (reset_all (slots_ c) (cells c)). }
  split; [done|]. by apply all_zero_invalid.
Qed.

(** X13.  [clear] and [operator=] on a registry with tracked ids.  After
    [clear] no id the registry has issued is valid; after [operator=] the
    only id that can be valid is the one of the handle returned. *)
Theorem clear_invalidates_every_id_issued ops f (i : t) :
  valid i (cells (clear (run_ops ops (new_callback [])).2)) = false ∧
  (valid i (cells (assign f (run_ops ops (new_callback [])).2).2) = true →
   i = (assign f (run_ops ops (new_callback [])).2).1).
Proof.
  pose proof (cells_owned_run_ops ops _ cells_owned_new) as Hown.
  set (c := (run_ops ops (new_callback [])).2) in *.
  pose proof (cells_clear_all_zero c Hown) as Hall.
  split; [by apply all_zero_invalid|].
  unfold assign. rewrite tracked_add_cells, tracked_add_id.
  unfold valid. destruct i as [[l|]]; [|done]. simpl.
  destruct ((cells (clear c) ++ [size_t_incr (highestID_ (clear c))]) !! l)
    as [v|] eqn:Hl; [|done].
  apply lookup_app_Some in Hl as [Hl|[Hge Hl]].
  - rewrite Forall_lookup in Hall. by rewrite (Hall l v Hl).
  - apply list_lookup_singleton_Some in Hl as [Hl _].
    intros _. do 2 f_equal. lia.
Qed.

(** X14.  A tracked id that is valid names an entry that is registered.
    After any sequence of [add], [operator+=], [operator=], [disconnect]
    and [clear] on a registry with tracked ids, an id for which [valid] holds compares equal
    to the id of an entry of the list: no handle reports a registration
    that has been unlinked or cleared. *)
Theorem valid_tracked_id_is_registered ops (i : t) :
  valid i (cells (run_ops ops (new_callback [])).2) = true →
  ∃ s, s ∈ slots_ (run_ops ops (new_callback [])).2 ∧ id s = i.
Proof.
  pose proof (cells_owned_run_ops ops _ cells_owned_new) as Hown.
  set (c := (run_ops ops (new_callback [])).2) in *.
  unfold valid. destruct i as [[l|]]; [|done]. simpl.
  destruct (cells c !! l) as [v|] eqn:Hl; [|done].
  intros Hv. destruct (Hown l v Hl) as [->|(s & Hin & Hs)]; [done|].
  exists s. split; [done|]. destruct s as [[l'] g]. simpl in *. by subst.
Qed.

End TrackedRegistry.

(** ** Tracked ids *)

Section TrackedMore.
Import TrackedConnectionID.
Implicit Types (h : heap) (l : loc).

(** X15.  [reset] of a tracked id reaches the copies of that id only: an
    id that holds another cell, or none, is valid afterwards exactly when
    it was valid before. *)
Theorem tracked_reset_leaves_other_ids (c i : t) h :
  value i ≠ value c →
  valid i (reset c h).2 = valid i h.
Proof.
  intros Hne. unfold valid, reset. cbn [snd].
  destruct (value i) as [l|]; [|done].
  destruct (value c) as [l'|]; [|done].
  rewrite list_lookup_insert_ne; [done|]. congruence.
Qed.

(** X16.  An id made from a value is valid exactly when the value is not
    zero; it compares unequal to every id that holds a cell allocated
    before, and making it does not change whether such an id is valid. *)
Theorem tracked_make_is_fresh (val : Z) h (i : t) l :
  value i = Some l →
  (l < length h)%nat →
  valid (make val h).1 (make val h).2 = negb (val =? 0) ∧
  (make val h).1 ≠ i ∧
  valid i (make val h).2 = valid i h.
Proof.
  intros Hi Hl. unfold make. cbn [fst snd]. split; [|split].
  - unfold valid. simpl. by rewrite list_lookup_middle.
  - intros <-. simpl in Hi. injection Hi as <-. lia.
  - unfold valid. rewrite Hi. by rewrite lookup_app_l.
Qed.

End TrackedMore.

(** ** More about [call] *)

Section DispatchMore.
Context {Args Ret ID Store : Type} `{!ConnID ID Store}.
Local Abbreviation Callback := (Callback Args Ret ID Store).
Local Abbreviation CallbackSlot := (CallbackSlot Args Ret ID).
Local Abbreviation Prog := (Prog Args Ret ID).
Local Abbreviation Event := (Event Args ID).
Implicit Types (c : Callback) (chain : list CallbackSlot) (i : ID).
Implicit Types (evs : list Event) (a : Args) (ret : list Ret).

(** The operations on the frames and on the output, on a registry given
    by its members. *)
Lemma push_frame_mk (ce : Store) h chain (it : list CallIter) evs :
  push_frame (mkCallback ce h chain it evs)
  = mkCallback ce h chain (mkIter 0 :: it) evs.
Proof. done. Qed.

Lemma pop_frame_mk (ce : Store) h chain (it : list CallIter) evs :
  pop_frame (mkCallback ce h chain it evs) = mkCallback ce h chain (tail it) evs.
Proof. done. Qed.

Lemma write_mk (e : Event) (ce : Store) h chain (it : list CallIter) evs :
  write e (mkCallback ce h chain it evs) = mkCallback ce h chain it (evs ++ [e]).
Proof. done. Qed.

Lemma write_all_mk evs' (ce : Store) h chain (it : list CallIter) evs :
  write_all evs' (mkCallback ce h chain it evs)
  = mkCallback ce h chain it (evs ++ evs').
Proof. done. Qed.

Lemma set_current_mk n (ce : Store) h chain m (it : list CallIter) evs :
  set_current n (mkCallback ce h chain (mkIter m :: it) evs)
  = mkCallback ce h chain (mkIter n :: it) evs.
Proof. done. Qed.

Ltac by_members :=
  repeat first
    [ rewrite push_frame_mk | rewrite pop_frame_mk | rewrite write_mk
    | rewrite write_all_mk | rewrite set_current_mk ].

Lemma steps_app depth n chain1 chain2 a :
  steps depth n (chain1 ++ chain2) a =
  steps depth n chain1 a ++ steps depth (n + length chain1) chain2 a.
Proof.
  revert n. induction chain1 as [|s chain1 IH]; intros n; simpl.
  - by rewrite Nat.add_0_r.
  - rewrite IH. do 3 f_equal. lia.
Qed.

(** The loop over entries whose listeners only return: the turns for them
    are taken, and the loop goes on behind them. *)
Lemma loop_prefix_returns pre : ∀ rets fuel a ret c n above rest,
  callIter_ c = mkIter n :: above →
  drop n (slots_ c) = pre ++ rest →
  returns_only a pre rets →
  loop (length pre + fuel) a ret c =
    loop fuel a (ret ++ rets)
      (set_current (n + length pre)
         (write_all (steps (S (length above)) n pre a) c)).
Proof.
  induction pre as [|slot pre IH]; intros rets fuel a ret c n above rest Hit Hdrop Hret.
  - apply Forall2_nil_inv_l in Hret as ->. simpl. rewrite app_nil_r.
    f_equal. destruct c as [ce h sl it o]. simpl in *. subst it.
    unfold set_current, write_all. simpl.
    by rewrite app_nil_r, Nat.add_0_r.
  - apply Forall2_cons_inv_l in Hret as (r & rets' & Hr & Hrets & ->).
    change (length (slot :: pre) + fuel)%nat with (S (length pre + fuel)).
    rewrite loop_S, (current_cons c n above Hit).
    assert (slots_ c !! n = Some slot) as Hslot.
    { rewrite <- (Nat.add_0_r n), <- lookup_drop, Hdrop. done. }
    rewrite Hslot, Hr.
    destruct (length pre + fuel)%nat as [|m] eqn:Em.
    { assert (fuel = 0%nat) as -> by lia. done. }
    rewrite exec_S, <- Em.
    set (c1 := set_current (S n) _).
    rewrite (IH rets' fuel a (ret ++ [r]) c1 (S n) above rest).
    + f_equal; [by rewrite <- app_assoc|].
      destruct c as [ce h sl it o]. simpl in *. subst it c1.
      unfold set_current, write_all, write, set_callIter. simpl.
      rewrite <- app_assoc. simpl.
      by replace (S (n + length pre)) with (n + S (length pre))%nat by lia.
    + subst c1. destruct c as [ce h sl it o]. simpl in *. by subst it.
    + subst c1. destruct c as [ce h sl it o]. simpl in *. subst it. simpl.
      by rewrite (drop_S _ slot) in Hdrop; [injection Hdrop|].
    + done.
Qed.

(** X17.  A listener that fails ends the call.  When the listeners before
    it only return, they are invoked in order, then the failing one; the
    failure leaves [call] at once: the listeners behind it are not invoked,
    the values returned so far are not handed to the caller, no end of the
    call is written, and the frame of the call stays linked with its cursor
    behind the failing entry. *)
Theorem call_stops_at_failing_listener fuel a c pre bad post rets :
  slots_ c = pre ++ bad :: post →
  returns_only a pre rets →
  func bad (id bad) a = Throw →
  (length pre + 1 < fuel)%nat →
  call fuel a c =
    Failed
      (set_callIter (mkIter (S (length pre)) :: callIter_ c)
         (write_all
            (CallBegin :: steps (S (length (callIter_ c))) 0 (pre ++ [bad]) a)
            c)).
Proof.
  intros Hs Hret Hbad Hfuel. rewrite call_unfold.
  replace fuel with (length pre + S (S (fuel - length pre - 2)))%nat by lia.
  rewrite (loop_prefix_returns pre rets _ a [] (write CallBegin (push_frame c))
             0 (callIter_ c) (bad :: post)); [|done|done|done].
  set (c1 := set_current _ _).
  assert (callIter_ c1 = mkIter (length pre) :: callIter_ c) as Hit1.
  { subst c1. by destruct c. }
  assert (slots_ c1 = pre ++ bad :: post) as Hs1.
  { subst c1. by destruct c. }
  rewrite loop_S, (current_cons c1 _ _ Hit1), Hs1.
  rewrite list_lookup_middle by done. rewrite Hbad, exec_S.
  f_equal. subst c1. destruct c as [ce h sl it o]. simpl in *.
  unfold set_current, write_all, write, set_callIter, push_frame. simpl.
  rewrite steps_app. simpl. by rewrite <- !app_assoc.
Qed.

(** X18.  A listener that calls the registry again, among listeners that
    only return.  The outer call invokes the entries before it and the
    listener itself; the nested call then pushes its own frame, invokes
    every entry of the list from the first on, and returns; after that the
    outer call goes on with the entry behind the calling listener and
    returns the values of its own turns.  The steps of the nested call lie
    between the outer step of the listener that called and the outer step
    of the entry behind it. *)
Theorem nested_call_interleaves
    fuel a a' c pre rec post rets_pre rets_in rets_post
    (k : list Ret → Prog) (r : Ret) :
  slots_ c = pre ++ rec :: post →
  returns_only a pre rets_pre →
  func rec (id rec) a = Call a' k →
  returns_only a' (slots_ c) rets_in →
  k rets_in = Return r →
  returns_only a post rets_post →
  (length pre + length (slots_ c) + 2 < fuel)%nat →
  call fuel a c =
    Done (rets_pre ++ r :: rets_post)
      (write_all
         (CallBegin :: steps (S (length (callIter_ c))) 0 (pre ++ [rec]) a
            ++ CallBegin
            :: steps (S (S (length (callIter_ c)))) 0 (slots_ c) a'
            ++ CallEnd
            :: steps (S (length (callIter_ c))) (S (length pre)) post a
            ++ [CallEnd])
         c).
Proof.
  intros Hs Hpre Hrec Hin Hk Hpost Hfuel. rewrite call_unfold.
  replace fuel with (length pre + S (S (fuel - length pre - 2)))%nat by lia.
  set (fuel3 := (fuel - length pre - 2)%nat).
  assert (length (slots_ c) < fuel3)%nat as Hfuel3 by (subst fuel3; lia).
  rewrite (loop_prefix_returns pre rets_pre _ a [] (write CallBegin (push_frame c))
             0 (callIter_ c) (rec :: post)); [|done|done|done].
  remember (set_current (0 + length pre) _) as c1 eqn:Ec1.
  assert (callIter_ c1 = mkIter (length pre) :: callIter_ c) as Hit1.
  { rewrite Ec1. by destruct c. }
  assert (slots_ c1 = slots_ c) as Hs1.
  { rewrite Ec1. by destruct c. }
  rewrite loop_S, (current_cons c1 _ _ Hit1), Hs1, Hs.
  rewrite list_lookup_middle by done. rewrite Hrec, exec_S.
  set (c2 := set_current _ _).
  assert (callIter_ c2 = mkIter (S (length pre)) :: callIter_ c) as Hit2.
  { subst c2. unfold set_current, write. simpl. by rewrite Hit1. }
  assert (slots_ c2 = slots_ c) as Hs2.
  { subst c2. unfold set_current, write. simpl. by rewrite Hit1. }
  rewrite (call_returns_only fuel3 a' c2 rets_in) by (by rewrite Hs2).
  rewrite Hk.
  destruct fuel3 as [|fuel4] eqn:E3; [lia|].
  rewrite exec_S.
  set (c3 := write_all _ c2).
  rewrite (loop_returns_only post rets_post (S (S fuel4)) a _ c3
             (S (length pre)) (callIter_ c)); [|done| |done|].
  - f_equal; [by rewrite <- app_assoc|].
    subst c3 c2. rewrite Ec1. clear Ec1 Hit1 Hs1 Hit2 Hs2.
    destruct c as [ce h sl it o]. simpl in *. subst sl.
    by_members. cbn [tail]. f_equal. rewrite !steps_app. simpl.
    rewrite ?Nat.add_0_r. repeat (rewrite <- !app_assoc; simpl).
    done.
  - subst c3. unfold write_all. simpl. rewrite Hs2, Hs.
    rewrite (cons_middle rec pre post), app_assoc.
    apply drop_app_length'. rewrite length_app. simpl. lia.
  - rewrite Hs, length_app in Hfuel3. simpl in Hfuel3. lia.
Qed.

Lemma slots_set_current n c : slots_ (set_current n c) = slots_ c.
Proof. unfold set_current. by destruct (callIter_ c). Qed.

Lemma out_set_current n c : out (set_current n c) = out c.
Proof. unfold set_current. by destruct (callIter_ c). Qed.

Lemma callIter_set_current n c (f : CallIter) above :
  callIter_ c = f :: above →
  callIter_ (set_current n c) = mkCallIter n (next f) :: above.
Proof. intros Hit. unfold set_current. by rewrite Hit. Qed.

(** X19.  A first listener that cancels the handle it is passed.  The
    call has moved its index to 1 before the listener runs; the listener's
    [disconnect] unlinks the first entry and writes no index, so the entry
    that was second is now at index 0 and the call goes on at index 1, with
    the entry that was third.  When the listeners behind the second only
    return, the call returns the value of the first and theirs, and the
    second listener is not invoked; it stays registered. *)
Theorem call_skips_entry_behind_self_cancelling_first
    fuel a c first second rest (k : bool → Prog) (r : Ret) rets :
  slots_ c = first :: second :: rest →
  func first (id first) a = Disconnect (id first) k →
  (∀ b, k b = Return r) →
  id first ≠ id_default →
  Forall (λ s, id s ≠ id first) (second :: rest) →
  returns_only a rest rets →
  (length rest + 2 < fuel)%nat →
  ∃ c', call fuel a c = Done (r :: rets) c' ∧
        slots_ c' = second :: rest ∧
        callIter_ c' = checkErase (slots_ c) 0 (callIter_ c) ∧
        out c' = out c ++
          CallBegin
          :: CallStep (S (length (callIter_ c))) 0 (id first) a
          :: steps (S (length (callIter_ c))) 1 rest a ++ [CallEnd].
Proof.
  intros Hs Hfirst Hk Hid Hall Hret Hfuel. rewrite call_unfold.
  destruct fuel as [|[|[|fuel]]]; [lia..|].
  remember (write CallBegin (push_frame c)) as c0 eqn:Ec0.
  assert (callIter_ c0 = mkIter 0 :: callIter_ c) as Hit0 by (by rewrite Ec0).
  assert (slots_ c0 = first :: second :: rest) as Hs0 by (by rewrite Ec0).
  assert (out c0 = out c ++ [CallBegin]) as Ho0 by (by rewrite Ec0).
  rewrite loop_S, (current_cons c0 0 _ Hit0), Hs0. cbn [lookup list_lookup].
  rewrite Hfirst, exec_S, Hit0.
  remember (set_current 1 _) as c1 eqn:Ec1.
  assert (callIter_ c1 = mkIter 1 :: callIter_ c) as Hit1.
  { rewrite Ec1. by rewrite (callIter_set_current 1 _ (mkIter 0) (callIter_ c)). }
  assert (slots_ c1 = first :: second :: rest) as Hs1.
  { rewrite Ec1. by rewrite slots_set_current. }
  assert (out c1 = out c ++ [CallBegin]
                     ++ [CallStep (S (length (callIter_ c))) 0 (id first) a])
    as Ho1.
  { rewrite Ec1, out_set_current. simpl. by rewrite Ho0, <- app_assoc. }
  destruct (disconnect_first_unique (id first) c1 first (second :: rest)
              Hid Hs1 eq_refl Hall) as [Hd Hslots].
  rewrite Hd in Hslots. rewrite Hd. cbn [fst snd] in *.
  rewrite Hk, exec_S.
  remember (unlink_first _) as c2 eqn:Ec2.
  assert (callIter_ c2 = mkIter 1 :: checkErase (slots_ c) 0 (callIter_ c))
    as Hit2.
  { rewrite Ec2. unfold unlink_first. simpl. rewrite callIter_reset_id. simpl.
    rewrite Hit1, Hs1, Hs. done. }
  assert (out c2 = out c1) as Ho2.
  { rewrite Ec2. unfold unlink_first. simpl. by rewrite out_reset_id. }
  rewrite (loop_returns_only rest rets (S (S fuel)) a [r] c2 1
             (checkErase (slots_ c) 0 (callIter_ c)));
    [|done|by rewrite Hslots|done|lia].
  eexists. split; [done|].
  unfold pop_frame, write. cbn [slots_ callIter_ out set_callIter].
  rewrite slots_set_current, out_set_current.
  rewrite (callIter_set_current _ _ (mkIter 1)
             (checkErase (slots_ c) 0 (callIter_ c))) by done.
  cbn [slots_ callIter_ out write_all tail].
  rewrite Hslots, Ho2, Ho1, length_checkErase.
  split; [done|]. split; [done|].
  by rewrite <- !app_assoc.
Qed.

Lemma exec_adds a (p : Prog) rs r :
  adds_then_returns a p rs r →
  ∀ fuel c, (length rs < fuel)%nat →
  ∃ c' news,
    exec fuel p c = Done r c' ∧
    callIter_ c' = callIter_ c ∧
    out c' = out c ∧
    slots_ c' = slots_ c ++ news ∧
    returns_only a news rs.
Proof.
  induction 1 as [r|g k r' rs r Hg Hk IH]; intros fuel c Hfuel.
  - destruct fuel as [|fuel]; [simpl in Hfuel; lia|].
    exists c, []. rewrite exec_S, app_nil_r. repeat split; try done. constructor.
  - destruct fuel as [|fuel]; [simpl in Hfuel; lia|].
    rewrite exec_S.
    destruct (IH (add g c).1 fuel (add g c).2) as (c' & news & He & Hit & Hout & Hs & Hret).
    { simpl in Hfuel. lia. }
    exists c', (mkSlot (id_from_size (size_t_incr (highestID_ c)) (cells c)).1 g
                 :: news).
    rewrite He, Hit, Hout, Hs. unfold add. cbn [snd].
    rewrite callIter_emplace, out_emplace, slots_emplace.
    repeat split; try done.
    + by rewrite <- app_assoc.
    + constructor; [|done]. simpl. apply Hg.
Qed.

Lemma loop_adds a chain : ∀ results pending prets fuel ret c n above,
  callIter_ c = mkIter n :: above →
  drop n (slots_ c) = chain ++ pending →
  chain_adds a chain results →
  returns_only a pending prets →
  (length chain + length pending + 2 * length (concat (snd <$> results)) + 1
     < fuel)%nat →
  ∃ c' news,
    loop fuel a ret c =
      Done (ret ++ (fst <$> results) ++ prets ++ concat (snd <$> results)) c' ∧
    (∃ m, callIter_ c' = mkIter m :: above) ∧
    slots_ c' = slots_ c ++ news ∧
    returns_only a news (concat (snd <$> results)) ∧
    out c' = out c ++ steps (S (length above)) n (chain ++ pending ++ news) a.
Proof.
  induction chain as [|slot chain IH];
    intros results pending prets fuel ret c n above Hit Hdrop Hadds Hpend Hfuel.
  - apply Forall2_nil_inv_l in Hadds as ->. simpl in *.
    exists (set_current (n + length pending)
              (write_all (steps (S (length above)) n pending a) c)), [].
    rewrite (loop_returns_only pending prets fuel a ret c n above)
      by (done || lia).
    rewrite !app_nil_r.
    destruct c as [ce h sl it o]. simpl in *. subst it. by_members. simpl.
    repeat split; try done; [by eexists | constructor].
  - apply Forall2_cons_inv_l in Hadds as ([r rs] & results' & Hslot & Hadds & ->).
    simpl in Hslot.
    rewrite fmap_cons in Hfuel. cbn [concat snd] in Hfuel.
    rewrite length_app in Hfuel.
    change (length (slot :: chain)) with (S (length chain)) in Hfuel.
    destruct fuel as [|fuel]; [lia|].
    rewrite loop_S, (current_cons c n above Hit).
    assert (slots_ c !! n = Some slot) as Hn.
    { rewrite <- (Nat.add_0_r n), <- lookup_drop, Hdrop. done. }
    rewrite Hn.
    remember (set_current (S n) _) as c1 eqn:Ec1.
    assert (callIter_ c1 = mkIter (S n) :: above) as Hit1.
    { rewrite Ec1. unfold set_current, write. simpl. by rewrite Hit. }
    assert (slots_ c1 = slots_ c) as Hs1.
    { rewrite Ec1. unfold set_current, write. simpl. by rewrite Hit. }
    assert (out c1 = out c ++ [CallStep (S (length above)) n (id slot) a]) as Ho1.
    { rewrite Ec1. unfold set_current, write. simpl. by rewrite Hit. }
    destruct (exec_adds a _ rs r Hslot fuel c1 ltac:(lia))
      as (c2 & news1 & He & Hit2 & Ho2 & Hs2 & Hret1).
    rewrite He.
    destruct (IH results' (pending ++ news1) (prets ++ rs) fuel (ret ++ [r]) c2
                (S n) above) as (c' & news & Hloop & Hit' & Hs' & Hret' & Hout').
    { by rewrite Hit2. }
    { rewrite Hs2, Hs1. rewrite drop_app_le by (apply lookup_lt_Some in Hn; lia).
      rewrite (drop_S _ slot n Hn) in Hdrop. injection Hdrop as ->.
      by rewrite <- app_assoc. }
    { done. }
    { by apply Forall2_app. }
    { rewrite length_app. pose proof (Forall2_length _ _ _ Hret1). lia. }
    exists c', (news1 ++ news).
    rewrite Hloop, Hs', Hs2, Hs1, Hout', Ho2, Ho1.
    split; [|split; [done|]]; repeat split.
    + f_equal. simpl. by rewrite <- !app_assoc.
    + by rewrite <- app_assoc.
    + by apply Forall2_app.
    + simpl. by rewrite <- !app_assoc.
Qed.

(** X20.  Listeners registered during a call are invoked by that call.
    When the listeners of the registry, called with the arguments, register
    further listeners and return, and those only return, the call invokes
    every entry that was registered when it began, then every entry that
    was added meanwhile, in the order of registration; it returns the
    values of all of them in that order and pops its frame. *)
Theorem call_visits_listeners_added_meanwhile fuel a c results :
  chain_adds a (slots_ c) results →
  (length (slots_ c) + 2 * length (concat (snd <$> results)) + 1 < fuel)%nat →
  ∃ c' news,
    call fuel a c = Done ((fst <$> results) ++ concat (snd <$> results)) c' ∧
    callIter_ c' = callIter_ c ∧
    slots_ c' = slots_ c ++ news ∧
    returns_only a news (concat (snd <$> results)) ∧
    out c' = out c ++
      CallBegin
      :: steps (S (length (callIter_ c))) 0 (slots_ c ++ news) a ++ [CallEnd].
Proof.
  intros Hadds Hfuel. rewrite call_unfold.
  destruct (loop_adds a (slots_ c) results [] [] fuel []
              (write CallBegin (push_frame c)) 0 (callIter_ c))
    as (c1 & news & Hloop & [m Hit] & Hs & Hret & Hout).
  { done. }
  { simpl. by rewrite app_nil_r. }
  { done. }
  { constructor. }
  { simpl. lia. }
  rewrite Hloop. eexists _, news. split; [done|].
  unfold pop_frame, write. simpl. rewrite Hit, Hs, Hout. simpl.
  repeat split; try done.
  by rewrite <- !app_assoc.
Qed.

End DispatchMore.

(** ** Handles and guards *)

Section HandlesMore.
Context {C ID Store : Type} `{!ConnID ID Store} `{!ConnectableT C ID}.
Local Abbreviation Handle := (ConnectionT.t ID).
Local Abbreviation Guard := (UniqueConnectionT.t ID).
Local Abbreviation Heap := (Heap C ID).
Implicit Types (h : Handle) (g lhs : Guard) (w : Heap).

(** X21.  [ConnectionT::disconnect] forwards once per handle.  The first
    call on a handle makes the call [connectable_->disconnect(id_)] when
    the handle is not empty and empties the handle; a second call on the
    same handle changes nothing.  A copy made before is not emptied: it
    forwards the same call once more. *)
Theorem handle_disconnect_forwards_once h w :
  let hw := ConnectionT.disconnect h w in
  hw.1 = ConnectionT.mk None id_default ∧
  forwarded hw.2 =
    forwarded w ++
      match ConnectionT.connectable_ h with
      | Some r => [(r, ConnectionT.id_ h)]
      | None => []
      end ∧
  ConnectionT.disconnect hw.1 hw.2 = hw ∧
  forwarded (ConnectionT.disconnect h hw.2).2 =
    forwarded hw.2 ++
      match ConnectionT.connectable_ h with
      | Some r => [(r, ConnectionT.id_ h)]
      | None => []
      end.
Proof.
  unfold ConnectionT.disconnect. simpl.
  destruct (ConnectionT.connectable_ h) as [r|]; simpl;
    by rewrite ?app_nil_r.
Qed.


(** X23.  Move assignment between two guards.  The registration that the
    guard assigned to held is cancelled first, with one call; the guard
    then holds the registration of the other guard, which is left empty.
    When both are destroyed afterwards, in either order, one more call is
    made, for the registration moved: each of the two registrations is
    cancelled exactly once. *)
Theorem move_assign_cancels_each_once g lhs w :
  let r := UniqueConnectionT.move_assign g lhs w in
  let held (x : Guard) :=
    match UniqueConnectionT.conn_ x with
    | Some c => [(c, UniqueConnectionT.id_ x)]
    | None => []
    end in
  r.1.2 = UniqueConnectionT.empty ∧
  forwarded r.2 = forwarded w ++ held g ∧
  forwarded (UniqueConnectionT.destroy r.1.1
               (UniqueConnectionT.destroy r.1.2 r.2).2).2
    = forwarded w ++ held g ++ held lhs ∧
  forwarded (UniqueConnectionT.destroy r.1.2
               (UniqueConnectionT.destroy r.1.1 r.2).2).2
    = forwarded w ++ held g ++ held lhs.
Proof.
  unfold UniqueConnectionT.move_assign, UniqueConnectionT.destroy,
    UniqueConnectionT.disconnect. simpl.
  destruct (UniqueConnectionT.conn_ g), (UniqueConnectionT.conn_ lhs); simpl;
    by rewrite <- ?app_assoc, ?app_nil_r.
Qed.

End HandlesMore.

Section GuardOnRegistry.
Context {Args Ret ID Store : Type} `{!ConnID ID Store}.
Local Abbreviation Callback := (Callback Args Ret ID Store).
Local Abbreviation CallbackSlot := (CallbackSlot Args Ret ID).

(** X24.  A guard made from the handle of the first entry unregisters it.
    When the guard is destroyed, the call it makes reaches [disconnect] of
    the registry; if the id is not the default id and no other entry
    carries it, the registry is left with the entries behind the first,
    and a second guard operation makes no further call. *)
Theorem guard_unregisters_the_first_entry (c : Callback) (first : CallbackSlot) rest :
  slots_ c = first :: rest →
  id first ≠ id_default →
  Forall (λ s, id s ≠ id first) rest →
  let g := UniqueConnectionT.of_connection (ConnectionT.mk (Some 0%nat) (id first)) in
  let gw := UniqueConnectionT.destroy g (mkHeap [c] []) in
  slots_ <$> objs gw.2 = [rest] ∧
  forwarded gw.2 = [(0%nat, id first)] ∧
  UniqueConnectionT.destroy gw.1 gw.2 = gw.
Proof.
  intros Hs Hid Hrest.
  destruct (disconnect_first_unique (id first) c first rest Hid Hs eq_refl Hrest)
    as [_ Hslots].
  simpl. by rewrite Hslots.
Qed.

End GuardOnRegistry.
Module ExampleFacts.
Import ConnectionID Examples.

(** C1.  [abc] holds the live entries 1, 2, 3.  [disconnect] of id 1, the
    first entry of the list, unlinks that entry and returns [false], where
    the specification and the function's own comment ("Returns whether the
    function could be found") call for [true]: the branch for the first
    entry does not return. *)
Lemma disconnect_first_entry_returns_false :
  id <$> slots_ abc = [mk 1; mk 2; mk 3] ∧
  (disconnect (mk 1) abc).1 = false ∧
  id <$> slots_ (disconnect (mk 1) abc).2 = [mk 2; mk 3].
Proof. vm_compute. repeat split; reflexivity. Qed.

(** For an entry that is not the first, [disconnect] returns [true], resets
    the id of the entry before it and leaves the entry itself linked with
    its id, so that the same id is found again. *)
Lemma disconnect_inner_entry_stays_linked :
  (disconnect (mk 2) abc).1 = true ∧
  id <$> slots_ (disconnect (mk 2) abc).2 = [mk 0; mk 2; mk 3] ∧
  (disconnect (mk 2) (disconnect (mk 2) abc).2).1 = true.
Proof. vm_compute. repeat split; reflexivity. Qed.

(** B cancels C during a call: [disconnect] reports success, C is invoked
    by that call all the same, and by the next call again, with B's id
    reset and C's id in place. *)
Lemma cancelled_entry_is_invoked_again :
  ∃ c1 c2,
    call 10 0 b_cancels_c = Done [1; 2; 3] c1 ∧
    id <$> slots_ c1 = [mk 1; mk 0; mk 3] ∧
    call 10 0 c1 = Done [1; 2; 3] c2.
Proof.
  eexists _, _. split; [vm_compute; reflexivity|].
  split; vm_compute; reflexivity.
Qed.

(** The same on a registry with tracked ids, whose two entries hold the
    cells 0 and 1.  [disconnect] of the first entry's id zeroes that entry's
    cell.  [disconnect] of the second entry's id reports success and zeroes
    the first entry's cell: the copies of the second id stay valid and
    those of the first id are not, while both entries are linked. *)
Lemma tracked_disconnect_resets_the_entry_before :
  let first := TrackedConnectionID.mk (Some 0%nat) in
  let second := TrackedConnectionID.mk (Some 1%nat) in
  id <$> slots_ tracked_ab = [first; second] ∧
  TrackedConnectionID.valid first (cells (disconnect first tracked_ab).2) = false ∧
  (disconnect second tracked_ab).1 = true ∧
  TrackedConnectionID.valid second (cells (disconnect second tracked_ab).2) = true ∧
  TrackedConnectionID.valid first (cells (disconnect second tracked_ab).2) = false ∧
  length (slots_ (disconnect second tracked_ab).2) = 2%nat.
Proof. vm_compute. repeat split; reflexivity. Qed.

(** C2.  A registry whose only listener fails: the failure reaches the
    caller of [call] and the frame pushed by that call is still the
    registry's innermost frame, for both specialisations of [call]. *)
Lemma call_failure_leaves_frame_linked :
  callIter_ one_thrower = [] ∧
  (∃ c', call 2 0 one_thrower = Failed c' ∧ callIter_ c' = [mkIter 1]) ∧
  (∃ c', call_void 2 0 one_thrower = Failed c' ∧ callIter_ c' = [mkIter 1]).
Proof.
  split; [reflexivity|].
  split; eexists; split; vm_compute; reflexivity.
Qed.

(** C6.  [clearing] holds A and B; A is being invoked, so the index of
    the call's frame is 1, where B is.  [clear] removes both entries and
    writes no frame: the index is still 1, with no entry left in the list.
    The first listener registered after the [clear], still during A's
    invocation, takes position 0 and is passed over by the call in
    flight, which goes on at index 1 with the listener registered
    second. *)
Lemma clear_leaves_cursors_unrepaired :
  let c := set_current 1 (push_frame clearing) in
  id <$> slots_ c = [mk 1; mk 2] ∧
  slots_ (clear c) = [] ∧
  callIter_ (clear c) = [mkIter 1] ∧
  (∃ c', call 10 0 clearing = Done [1; 20] c').
Proof.
  cbv zeta. repeat (split; [vm_compute; reflexivity|]).
  eexists; vm_compute; reflexivity.
Qed.

(** C7.  A registry to which a listener is assigned with [operator=]
    2^64 - 1 times holds one entry, and its counter stands at the largest
    value.  The next [add] issues the id zero, the invalid id, which is
    not larger than the id before it; the [add] after that issues the id
    1, which the first [operator=] has issued already. *)
Lemma ids_wrap_after_assignments :
  let c := assign_times (Z.to_N SIZE_MAX) (returns 0) empty_reg in
  (assign (returns 0) empty_reg).1 = mk 1 ∧
  id <$> slots_ c = [mk SIZE_MAX] ∧
  (add (returns 1) c).1 = mk 0 ∧
  valid (add (returns 1) c).1 = false ∧
  (add (returns 2) (add (returns 1) c).2).1 = mk 1 ∧
  id <$> slots_ (add (returns 2) (add (returns 1) c).2).2
    = [mk SIZE_MAX; mk 0; mk 1].
Proof.
  cbv zeta.
  assert (0 ≤ highestID_ empty_reg < size_t_modulus) as H0.
  { split; [apply Z.le_refl | reflexivity]. }
  assert (slots_ (assign_times (Z.to_N SIZE_MAX) (returns 0) empty_reg)
          = [mkSlot (mk SIZE_MAX) (returns 0)]) as Hs.
  { replace (Z.to_N SIZE_MAX) with (N.succ (Z.to_N (SIZE_MAX - 1)))
      by reflexivity.
    rewrite (slots_assign_times _ _ _ H0). reflexivity. }
  assert (highestID_ (assign_times (Z.to_N SIZE_MAX) (returns 0) empty_reg)
          = SIZE_MAX) as Hh.
  { rewrite (highestID_assign_times _ _ _ H0). reflexivity. }
  split; [reflexivity|].
  split; [rewrite Hs; reflexivity|].
  split; [rewrite add_id, Hh; reflexivity|].
  split; [rewrite add_id, Hh; reflexivity|].
  split; [rewrite add_id, add_highestID, Hh; reflexivity|].
  rewrite !add_slots, add_highestID, Hs, Hh. reflexivity.
Qed.

(** Three calls of [add] on a new registry: the ids of the three entries
    are pairwise distinct. *)
Lemma add_issues_increasing_ids_witness :
  Z.of_nat (length [returns 1; returns 2; returns 3]) < size_t_modulus ∧
  NoDup (id <$> slots_ abc).
Proof.
  split; [by vm_compute|].
  apply (add_issues_increasing_ids [returns 1; returns 2; returns 3]).
  by vm_compute.
Defined.

(** The handle returned for the first listener of [tracked_ab] is valid
    while the registry lives and is not once it is destroyed. *)
Lemma destroy_resets_registered_ids_witness :
  let i := TrackedConnectionID.mk (Some 0%nat) in
  TrackedConnectionID.valid i (cells tracked_ab) = true ∧
  TrackedConnectionID.valid i (destroy tracked_ab).1 = false.
Proof.
  split; [reflexivity|].
  apply (destroy_resets_registered_ids tracked_ab
           (mkSlot (TrackedConnectionID.mk (Some 0%nat)) (λ _ _, Return 1))).
  - apply list_elem_of_lookup. exists 0%nat. reflexivity.
  - reflexivity.
Defined.

(** The example of the specification: A, B, C return 1, 2, 3 and the call
    yields them in that order, after one step per entry. *)
Lemma call_invokes_each_listener_once_witness :
  ∃ c', call 4 7 abc = Done [1; 2; 3] c' ∧
        callIter_ c' = callIter_ abc ∧
        slots_ abc `prefix_of` slots_ c' ∧
        out c' = [CallBegin; CallStep 1 0 (mk 1) 7; CallStep 1 1 (mk 2) 7;
                  CallStep 1 2 (mk 3) 7; CallEnd].
Proof.
  pose proof (call_invokes_each_listener_once 7 abc) as [Hfree Htotal].
  assert (cancel_free_chain (slots_ abc)) as Hcf.
  { vm_compute. repeat constructor. }
  assert (returns_only 7 (slots_ abc) [1; 2; 3]) as Hret.
  { vm_compute. repeat constructor. }
  assert (length (slots_ abc) < 4)%nat as Hfuel.
  { vm_compute. lia. }
  specialize (Htotal 4%nat [1; 2; 3] Hret Hfuel).
  destruct (Hfree Hcf 4%nat _ _ Htotal) as (Hframes & Hprefix & _ & _).
  eexists. split; [exact Htotal|].
  split; [exact Hframes|].
  split; [exact Hprefix|].
  reflexivity.
Defined.


(** The whole of that call: the steps of the nested call lie between the
    outer call's step for A and its step for B, and the outer call then
    visits B and C with its own argument. *)
Lemma nested_call_trace :
  ∃ c', call 10 0 nesting = Done [1; 2; 3] c' ∧
        out c' = [CallBegin; CallStep 1 0 (mk 1) 0;
                    CallBegin; CallStep 2 0 (mk 1) 1; CallStep 2 1 (mk 2) 1;
                    CallStep 2 2 (mk 3) 1; CallEnd;
                  CallStep 1 1 (mk 2) 0; CallStep 1 2 (mk 3) 0; CallEnd].
Proof. eexists. split; vm_compute; reflexivity. Qed.

(** C3.  Three listeners that each cancel the handle they are passed.  The
    call has moved its index to 1 before it invokes the first; the first
    listener's [disconnect] unlinks the first entry and writes no index
    ([checkErase] compares and writes [next], which [call] leaves null),
    so the second entry is at index 0 and the call goes on at index 1
    with the third.  The second listener is not invoked.  (The third
    listener's [disconnect] then resets the id of the entry before it,
    the second, as for every entry that is not the first.) *)
Lemma self_cancelling_entry_makes_call_skip_the_next :
  id <$> slots_ self_cancelling = [mk 1; mk 2; mk 3] ∧
  ∃ c', call 10 0 self_cancelling = Done [1; 3] c' ∧
        id <$> slots_ c' = [mk 0; mk 3] ∧
        callIter_ c' = [] ∧
        out c' = [CallBegin; CallStep 1 0 (mk 1) 0; CallStep 1 1 (mk 3) 0;
                  CallEnd].
Proof.
  split; [reflexivity|].
  eexists. split; [vm_compute; reflexivity|].
  split; [vm_compute; reflexivity|].
  split; vm_compute; reflexivity.
Qed.

(** A cancels B while B is the entry visited next: B stays linked, as in
    [disconnect_inner_entry_stays_linked], and is invoked; it is A's id
    that is reset. *)
Lemma cancelling_next_entry_keeps_traversal :
  ∃ c', call 10 0 cancelling_next = Done [1; 2; 3] c' ∧
        id <$> slots_ c' = [mk 0; mk 2; mk 3].
Proof. eexists. split; vm_compute; reflexivity. Qed.

(** C8.  Two handles are copies of the handle that [add] returned for the
    second listener of [tracked_ab]; they share the cell 1.  [disconnect]
    through one of them makes the call [connectable_->disconnect(id_)],
    once, and the registry's loop resets the id of the entry before the
    one that carries the id: the cell of the first registration is zeroed,
    the cell the two handles share is not.  The copy is still valid, the
    handles of the first registration are not, and both listeners are
    registered. *)
Lemma tracked_copy_stays_valid_after_cancel :
  let first := TrackedConnectionID.mk (Some 0%nat) in
  let second := TrackedConnectionID.mk (Some 1%nat) in
  let handle := ConnectionT.mk (Some 0%nat) second in
  let copy := ConnectionT.mk (Some 0%nat) second in
  let hw := ConnectionT.disconnect handle (mkHeap [tracked_ab] []) in
  id <$> slots_ tracked_ab = [first; second] ∧
  TrackedConnectionID.valid (ConnectionT.id_ copy) (cells tracked_ab) = true ∧
  forwarded hw.2 = [(0%nat, second)] ∧
  ∃ c', objs hw.2 = [c'] ∧
        TrackedConnectionID.valid (ConnectionT.id_ copy) (cells c') = true ∧
        TrackedConnectionID.valid first (cells c') = false ∧
        length (slots_ c') = 2%nat.
Proof.
  cbv zeta. repeat (split; [vm_compute; reflexivity|]).
  eexists. split; [vm_compute; reflexivity|].
  split; [vm_compute; reflexivity|].
  split; vm_compute; reflexivity.
Qed.

(** A guard for the first registration of [abc]: two calls of [disconnect]
    and the destructor forward one call to the registry, which unlinks the
    entry. *)
Lemma guard_on_registry :
  let g := UniqueConnectionT.make 0%nat (mk 1) in
  let gw := UniqueConnectionT.run
              [UniqueConnectionT.Disconnect; UniqueConnectionT.Disconnect;
               UniqueConnectionT.Destroy]
              (g, mkHeap [abc] []) in
  forwarded gw.2 = [(0%nat, mk 1)] ∧
  (λ c, id <$> slots_ c) <$> objs gw.2 = [[mk 2; mk 3]].
Proof. vm_compute. split; reflexivity. Qed.

End ExampleFacts.

(** ** The further properties on the concrete registries *)

Module MoreExampleFacts.
Import ConnectionID Examples MoreExamples.

(** No entry of [abc] carries the id 9: cancelling it changes nothing. *)
Lemma disconnect_unknown_id_changes_nothing_witness :
  Forall (λ s, id s ≠ mk 9) (slots_ abc) ∧
  disconnect (mk 9) abc = (false, abc).
Proof.
  assert (Forall (λ s, id s ≠ mk 9) (slots_ abc)) as H.
  { vm_compute. repeat (constructor; [discriminate|]). constructor. }
  split; [exact H|].
  apply (disconnect_unknown_id_changes_nothing (mk 9) abc). right. exact H.
Defined.

(** Cancelling B in [abc] resets the id of A and leaves B as it is. *)
Lemma disconnect_later_entry_resets_its_predecessor_witness :
  (disconnect (mk 2) abc).1 = true ∧
  id <$> slots_ (disconnect (mk 2) abc).2 = [mk 0; mk 2; mk 3].
Proof.
  destruct (disconnect_later_entry_resets_its_predecessor (mk 2) abc []
              (mkSlot (mk 1) (returns 1)) (mkSlot (mk 2) (returns 2))
              [mkSlot (mk 3) (returns 3)]) as (Hb & Hs & _).
  - discriminate.
  - reflexivity.
  - vm_compute. constructor; [discriminate|]. constructor.
  - reflexivity.
  - split; [exact Hb|]. rewrite Hs. reflexivity.
Defined.

(** Cancelling A in [abc_two_frames]: the inner frame keeps the index 1,
    where it found B and now finds C. *)
Lemma disconnect_first_leaves_the_index_behind_witness :
  ∃ f', callIter_ (disconnect (mk 1) abc_two_frames).2 !! 0%nat = Some f' ∧
        current f' = 1%nat ∧
        slots_ (disconnect (mk 1) abc_two_frames).2 !! current f' =
          Some (mkSlot (mk 3) (returns 3)).
Proof.
  apply (disconnect_first_leaves_the_index_behind (mk 1) abc_two_frames
           (mkSlot (mk 1) (returns 1))
           [mkSlot (mk 2) (returns 2); mkSlot (mk 3) (returns 3)]
           0%nat (mkIter 1)).
  - discriminate.
  - reflexivity.
  - reflexivity.
  - vm_compute. repeat (constructor; [discriminate|]). constructor.
  - reflexivity.
Defined.

(** The ids handed out during [session] are 1, 2 and 3. *)
Lemma ids_ascend_across_operations_witness :
  Z.of_nat (count_issued session) < size_t_modulus ∧
  (run_ops session (new_callback tt)).1 = [mk 1; mk 2; mk 3] ∧
  StronglySorted Z.lt (value <$> (run_ops session (new_callback tt)).1).
Proof.
  split; [reflexivity|]. split; [reflexivity|].
  apply (ids_ascend_across_operations session). reflexivity.
Defined.

(** After [two_then_cancel] the entry of B is the only one with the id 2. *)
Lemma valid_ids_name_one_entry_witness :
  let c := (run_ops two_then_cancel (new_callback tt)).2 in
  id <$> slots_ c = [mk 0; mk 2] ∧
  ∀ m s, slots_ c !! m = Some s → id s = mk 2 → 1%nat = m.
Proof.
  split; [reflexivity|]. intros m s Hm Hs.
  apply (valid_ids_name_one_entry two_then_cancel 1 m
           (mkSlot (mk 2) (returns 2)) s).
  - reflexivity.
  - reflexivity.
  - exact Hm.
  - symmetry. exact Hs.
  - reflexivity.
Defined.

(** After [operator=] on the registry of [tracked_session], the id that
    holds the cell allocated last is valid, and it is the id returned. *)
Lemma clear_invalidates_every_id_issued_witness :
  let c := (run_ops tracked_session (new_callback [])).2 in
  let i := TrackedConnectionID.mk (Some 2%nat) in
  TrackedConnectionID.valid i (cells (assign (λ _ _, Return 3) c).2) = true ∧
  i = (assign (λ _ _, Return 3) c).1.
Proof.
  split; [reflexivity|].
  apply (proj2 (clear_invalidates_every_id_issued tracked_session
                  (λ _ _, Return 3) (TrackedConnectionID.mk (Some 2%nat)))).
  reflexivity.
Defined.

(** The id of the second handle of [tracked_session] is valid, and the
    second entry carries it. *)
Lemma valid_tracked_id_is_registered_witness :
  let c := (run_ops tracked_session (new_callback [])).2 in
  let i := TrackedConnectionID.mk (Some 1%nat) in
  TrackedConnectionID.valid i (cells c) = true ∧
  ∃ s, s ∈ slots_ c ∧ id s = i.
Proof.
  split; [reflexivity|].
  apply (valid_tracked_id_is_registered tracked_session
           (TrackedConnectionID.mk (Some 1%nat))).
  reflexivity.
Defined.

(** Resetting the id that holds cell 0 leaves the id that holds cell 1
    valid. *)
Lemma tracked_reset_leaves_other_ids_witness :
  let c := TrackedConnectionID.mk (Some 0%nat) in
  let i := TrackedConnectionID.mk (Some 1%nat) in
  TrackedConnectionID.valid i (TrackedConnectionID.reset c [5; 7]).2 = true.
Proof.
  cbv zeta.
  rewrite (tracked_reset_leaves_other_ids
             (TrackedConnectionID.mk (Some 0%nat))
             (TrackedConnectionID.mk (Some 1%nat)) [5; 7]).
  - reflexivity.
  - discriminate.
Defined.

(** An id made from 3 beside the id that holds cell 0. *)
Lemma tracked_make_is_fresh_witness :
  let i := TrackedConnectionID.mk (Some 0%nat) in
  TrackedConnectionID.valid (TrackedConnectionID.make 3 [5]).1
    (TrackedConnectionID.make 3 [5]).2 = true ∧
  (TrackedConnectionID.make 3 [5]).1 ≠ i ∧
  TrackedConnectionID.valid i (TrackedConnectionID.make 3 [5]).2 = true.
Proof.
  destruct (tracked_make_is_fresh 3 [5] (TrackedConnectionID.mk (Some 0%nat))
              0%nat) as (Hnew & Hne & Hold).
  - reflexivity.
  - simpl. lia.
  - split; [exact Hnew|]. split; [exact Hne|]. rewrite Hold. reflexivity.
Defined.

(** In [b_throws] A is invoked, then B, which fails: C is not invoked and
    the frame of the call stays linked, its cursor on C. *)
Lemma call_stops_at_failing_listener_witness :
  ∃ c', call 3 7 b_throws = Failed c' ∧
        out c' = [CallBegin; CallStep 1 0 (mk 1) 7; CallStep 1 1 (mk 2) 7] ∧
        callIter_ c' = [mkIter 2].
Proof.
  eexists. split.
  - apply (call_stops_at_failing_listener 3 7 b_throws
             [mkSlot (mk 1) (returns 1)] (mkSlot (mk 2) thrower)
             [mkSlot (mk 3) (returns 3)] [1]).
    + reflexivity.
    + constructor; [reflexivity|]. constructor.
    + reflexivity.
    + simpl. lia.
  - split; reflexivity.
Defined.

(** In [nesting_in_b], called with 0, B calls the registry with 1: the
    three steps of the nested call lie between the outer steps of B and
    of C. *)
Lemma nested_call_interleaves_witness :
  ∃ c', call 7 0 nesting_in_b = Done [1; 2; 3] c' ∧
        callIter_ c' = [] ∧
        out c' = [CallBegin; CallStep 1 0 (mk 1) 0; CallStep 1 1 (mk 2) 0;
                  CallBegin; CallStep 2 0 (mk 1) 1; CallStep 2 1 (mk 2) 1;
                  CallStep 2 2 (mk 3) 1; CallEnd;
                  CallStep 1 2 (mk 3) 0; CallEnd].
Proof.
  eexists. split.
  - apply (nested_call_interleaves 7 0 1 nesting_in_b
             [mkSlot (mk 1) (returns 1)] (mkSlot (mk 2) (recurses 2))
             [mkSlot (mk 3) (returns 3)] [1] [1; 2; 3] [3]
             (λ _, Return 2) 2).
    + reflexivity.
    + constructor; [reflexivity|]. constructor.
    + reflexivity.
    + repeat (constructor; [reflexivity|]). constructor.
    + reflexivity.
    + constructor; [reflexivity|]. constructor.
    + simpl. lia.
  - split; reflexivity.
Defined.

(** In [a_cancels_itself] A cancels its own handle: the call returns the
    values of A and C, and B, which is not invoked, stays registered. *)
Lemma call_skips_entry_behind_self_cancelling_first_witness :
  ∃ c', call 4 0 a_cancels_itself = Done [1; 3] c' ∧
        id <$> slots_ c' = [mk 2; mk 3] ∧
        callIter_ c' = [].
Proof.
  destruct (call_skips_entry_behind_self_cancelling_first 4 0 a_cancels_itself
              (mkSlot (mk 1) (cancels_itself 1)) (mkSlot (mk 2) (returns 2))
              [mkSlot (mk 3) (returns 3)] (λ _, Return 1) 1 [3])
    as (c' & Hcall & Hs & Hit & _).
  - reflexivity.
  - reflexivity.
  - intros b. reflexivity.
  - discriminate.
  - vm_compute. repeat (constructor; [discriminate|]). constructor.
  - constructor; [reflexivity|]. constructor.
  - simpl. lia.
  - exists c'. split; [exact Hcall|]. split; [rewrite Hs; reflexivity|].
    rewrite Hit. reflexivity.
Defined.

(** In [a_adds] A registers a listener while it is invoked: the call
    invokes A, B and then the new listener. *)
Lemma call_visits_listeners_added_meanwhile_witness :
  ∃ c' news, call 6 0 a_adds = Done [1; 2; 10] c' ∧
             slots_ c' = slots_ a_adds ++ news ∧
             length news = 1%nat.
Proof.
  destruct (call_visits_listeners_added_meanwhile 6 0 a_adds
              [(1, [10]); (2, [])])
    as (c' & news & Hcall & _ & Hs & Hret & _).
  - constructor.
    + apply adds_add; [intros i; reflexivity | intros i; apply adds_return].
    + constructor; [apply adds_return|]. constructor.
  - vm_compute. lia.
  - exists c', news. split; [exact Hcall|]. split; [exact Hs|].
    apply Forall2_length in Hret. exact Hret.
Defined.

(** A guard for the first registration of [abc] is destroyed: B and C are
    left. *)
Lemma guard_unregisters_the_first_entry_witness :
  let g := UniqueConnectionT.of_connection
             (ConnectionT.mk (Some 0%nat) (mk 1)) in
  let gw := UniqueConnectionT.destroy g (mkHeap [abc] []) in
  (λ c, id <$> slots_ c) <$> objs gw.2 = [[mk 2; mk 3]] ∧
  forwarded gw.2 = [(0%nat, mk 1)].
Proof.
  destruct (guard_unregisters_the_first_entry abc
              (mkSlot (mk 1) (returns 1))
              [mkSlot (mk 2) (returns 2); mkSlot (mk 3) (returns 3)])
    as (_ & Hf & _).
  - reflexivity.
  - discriminate.
  - vm_compute. repeat (constructor; [discriminate|]). constructor.
  - split; [reflexivity|]. exact Hf.
Defined.

End MoreExampleFacts.
